(** * LDS_AI: the text-analysis core of [app.py]

    A shallow embedding of the analysis functions of [src/app.py]
    ([extract_key_clauses], [summarize_text], [detect_risks],
    [extract_legal_entities], [check_compliance]) together with the pieces
    of the Python runtime they rely on ([str.lower], [str.strip], the [in]
    test on strings, [re.split], [re.findall], [list(set(..))], slices), and
    the properties of the specification stated and proved against them.

    Conventions.
    - A Python [str] is a [string]; a character is the code point
      U+0000..U+00FF with that number, and the case, white-space, digit and
      word tables below are the Unicode ones restricted to that range.
    - [nlp] is [None] in fallback mode and [Some m] when the spaCy pipeline
      [m] was loaded; [m] maps a text to its [Doc].
    - [list(set(l))] enumerates the distinct elements of [l] in an order
      that depends on the string hashes of the running interpreter; the
      class [PySet] stands for one such interpreter. *)

From Stdlib Require Import Ascii String NArith ZArith Lia.
From stdpp Require Import base list strings gmap sorting.

(** ** Python strings *)

Module PyStr.

Definition ord (c : ascii) : N := N_of_ascii c.

Definition in_range (lo hi n : N) : bool := ((lo <=? n) && (n <=? hi))%N.

(** [str.isspace] on one character (also [\s] of [re]). *)
Definition isspace (c : ascii) : bool :=
  let n := ord c in
  in_range 9 13 n || in_range 28 32 n || (n =? 133)%N || (n =? 160)%N.

(** [\d] of [re]: the decimal digits. *)
Definition isdecimal (c : ascii) : bool := in_range 48 57 (ord c).

(** [str.isalnum] on one character. *)
Definition isalnum (c : ascii) : bool :=
  let n := ord c in
  in_range 48 57 n || in_range 65 90 n || in_range 97 122 n
  || (n =? 170)%N || (n =? 178)%N || (n =? 179)%N || (n =? 181)%N
  || (n =? 185)%N || (n =? 186)%N || in_range 188 190 n
  || in_range 192 214 n || in_range 216 246 n || in_range 248 255 n.

(** [\w] of [re]. *)
Definition isword (c : ascii) : bool := isalnum c || (ord c =? 95)%N.

Definition lower_char (c : ascii) : ascii :=
  let n := ord c in
  if in_range 65 90 n || (in_range 192 222 n && negb (n =? 215)%N)
  then ascii_of_N (n + 32) else c.

(** [s.lower()] *)
Fixpoint lower (s : string) : string :=
  match s with
  | EmptyString => EmptyString
  | String c r => String (lower_char c) (lower r)
  end.

Fixpoint lstrip (s : string) : string :=
  match s with
  | EmptyString => EmptyString
  | String c r => if isspace c then lstrip r else s
  end.

Fixpoint rstrip (s : string) : string :=
  match s with
  | EmptyString => EmptyString
  | String c r =>
      match rstrip r with
      | EmptyString => if isspace c then EmptyString else String c EmptyString
      | r' => String c r'
      end
  end.

(** [s.strip()] *)
Definition strip (s : string) : string := rstrip (lstrip s).

(** [s.startswith(p)] *)
Fixpoint startswith (p s : string) : bool :=
  match p, s with
  | EmptyString, _ => true
  | String _ _, EmptyString => false
  | String a p', String b s' => bool_decide (a = b) && startswith p' s'
  end.

(** [needle in hay] *)
Fixpoint str_in (needle hay : string) : bool :=
  startswith needle hay
  || match hay with
     | EmptyString => false
     | String _ r => str_in needle r
     end.

(** [sep.join(l)] *)
Definition join (sep : string) (l : list string) : string := String.concat sep l.

(** [l[:n]] for a Python integer [n]: a negative [n] counts from the end. *)
Definition slice_to {A} (n : Z) (l : list A) : list A :=
  if (0 <=? n)%Z then take (Z.to_nat n) l
  else take (length l - Z.to_nat (- n)) l.

End PyStr.

(** [list(set(l))]: the distinct elements of [l], in the order in which the
    interpreter's set iterates over them. *)
Class PySet := {
  list_set : list string → list string;
  list_set_NoDup : ∀ l, NoDup (list_set l);
  list_set_elem : ∀ l x, x ∈ list_set l ↔ x ∈ l
}.

(** ** The regular expressions of [re] used by the program *)

Module Re.
Import PyStr.

Inductive re : Type :=
| Eps                                        (* the empty pattern *)
| Lit (c : ascii)                            (* a literal character *)
| OneOf (cs : string)                        (* [...] *)
| Digit                                      (* \d *)
| Space                                      (* \s *)
| WordB                                      (* \b *)
| Seq (a b : re)
| Alt (a b : re)                             (* a|b *)
| Rep (a : re) (lo : nat) (hi : option nat). (* a{lo,hi}, greedy *)

Definition seq (l : list re) : re := foldr Seq Eps l.
Definition lit (s : string) : re := seq (Lit <$> list_ascii_of_string s).
Definition opt (a : re) : re := Rep a 0 (Some 1).
Definition star (a : re) : re := Rep a 0 None.
Definition plus (a : re) : re := Rep a 1 None.

Fixpoint mem (c : ascii) (cs : string) : bool :=
  match cs with
  | EmptyString => false
  | String d r => bool_decide (c = d) || mem c r
  end.

(** A position in the subject: the character before it, if any, and the
    rest of the subject. *)
Definition pos : Type := option ascii * string.

Definition at_boundary (p : pos) : bool :=
  let before := match p.1 with Some c => isword c | None => false end in
  let after := match p.2 with String c _ => isword c | EmptyString => false end in
  negb (eqb before after).

Definition one (ok : ascii → bool) (p : pos) : list pos :=
  match p.2 with
  | String c r => if ok c then [(Some c, r)] else []
  | EmptyString => []
  end.

(** Greedy repetition: one more round of [step] is tried before stopping;
    [fuel] bounds the number of rounds. *)
Fixpoint rep (step : pos → list pos) (lo fuel : nat) (p : pos) : list pos :=
  let stop := match lo with 0 => [p] | S _ => [] end in
  match fuel with
  | 0 => stop
  | S f => (step p ≫= rep step (pred lo) f) ++ stop
  end.

(** [run ic a p]: the positions at which a match of [a] starting at [p] can
    end, in the order in which the backtracking matcher finds them.
    [ic] is [re.IGNORECASE]. An unbounded repetition is run for at most as
    many rounds as characters are left, which is all of them when each
    round consumes a character, as in the patterns below. *)
Fixpoint run (ic : bool) (a : re) (p : pos) : list pos :=
  match a with
  | Eps => [p]
  | Lit c =>
      one (λ d, if ic then bool_decide (lower_char d = lower_char c)
                else bool_decide (d = c)) p
  | OneOf cs => one (λ d, mem d cs) p
  | Digit => one isdecimal p
  | Space => one isspace p
  | WordB => if at_boundary p then [p] else []
  | Seq a b => run ic a p ≫= run ic b
  | Alt a b => run ic a p ++ run ic b p
  | Rep a lo hi =>
      rep (run ic a) lo (match hi with Some h => h | None => String.length p.2 end) p
  end.

Definition consumed (s : string) (q : pos) : nat :=
  String.length s - String.length q.2.

(** The scan of [re.findall]: [skip] characters of the last match are still
    to be passed over. At a position where the pattern matches, the first
    match is reported and the scan resumes after it; after an empty match
    the same position is tried again for a match that is not empty. *)
Fixpoint scan (ic : bool) (a : re) (before : option ascii) (s : string)
    (skip : nat) : list string :=
  let next k :=
    match s with
    | String c r => scan ic a (Some c) r k
    | EmptyString => []
    end in
  let report q := substring 0 (consumed s q) s :: next (pred (consumed s q)) in
  match skip with
  | S k => next k
  | 0 =>
      match run ic a (before, s) with
      | [] => next 0
      | q :: qs =>
          if bool_decide (consumed s q = 0) then
            EmptyString ::
              match list_find (λ q', consumed s q' ≠ 0) qs with
              | Some (_, q') => report q'
              | None => next 0
              end
          else report q
      end
  end.

(** [re.findall(a, s)] for a pattern without capturing groups. *)
Definition findall (ic : bool) (a : re) (s : string) : list string :=
  scan ic a None s 0.

Definition cons_head (c : ascii) (l : list string) : list string :=
  match l with
  | p :: ps => String c p :: ps
  | [] => [String c EmptyString]
  end.

(** The scan of [re.split]: the head of the result is the piece that is
    being read; a match closes it and opens the next one. *)
Fixpoint cut (ic : bool) (a : re) (before : option ascii) (s : string)
    (skip : nat) : list string :=
  let next k :=
    match s with
    | String c r => cut ic a (Some c) r k
    | EmptyString => [EmptyString]
    end in
  let keep :=
    match s with
    | String c r => cons_head c (cut ic a (Some c) r 0)
    | EmptyString => [EmptyString]
    end in
  let close q := EmptyString :: next (pred (consumed s q)) in
  match skip with
  | S k => next k
  | 0 =>
      match run ic a (before, s) with
      | [] => keep
      | q :: qs =>
          if bool_decide (consumed s q = 0) then
            EmptyString ::
              match list_find (λ q', consumed s q' ≠ 0) qs with
              | Some (_, q') => close q'
              | None => keep
              end
          else close q
      end
  end.

(** [re.split(a, s)] for a pattern without capturing groups. *)
Definition split (ic : bool) (a : re) (s : string) : list string :=
  cut ic a None s 0.

End Re.

(** ** The spaCy pipeline, as far as the program uses it *)

Module Spacy.

Record Token := {
  text : string;          (* token.text *)
  whitespace_ : string;   (* the blank that follows the token, if any *)
  is_alpha : bool;
  is_stop : bool
}.

(** A [Span] is the sequence of its tokens: [len(span)] is their number. *)
Definition Span : Type := list Token.

Definition text_with_ws (t : Token) : string := text t +:+ whitespace_ t.

(** [str(span)]: the text of the tokens with the blanks between them,
    without the blank that follows the last one. *)
Fixpoint span_text (sp : Span) : string :=
  match sp with
  | [] => EmptyString
  | [t] => text t
  | t :: r => text_with_ws t +:+ span_text r
  end.

Record Ent := { label_ : string; ent_text : string }.

Record Doc := {
  sents : list Span;      (* list(doc.sents), in document order *)
  ents : list Ent         (* doc.ents *)
}.

(** Iterating over a [Doc] yields the tokens of its sentences. *)
Definition tokens (d : Doc) : list Token := concat (sents d).

Definition Language : Type := string → Doc.

End Spacy.

(** ** [app.py] *)

Module App.
Import PyStr Spacy.

Definition RISK_WORDS : list string :=
  ["fraud"; "penalty"; "violation"; "risk"; "lawsuit"; "breach";
   "noncompliance"; "litigation"; "regulatory"; "fine"].

(** [r'[.!?]+'] *)
Definition sentence_end : Re.re := Re.plus (Re.OneOf ".!?").

(** [r'\b\d{1,2}[/-]\d{1,2}[/-]\d{2,4}\b|\b\d{4}\b'] *)
Definition date_pattern : Re.re :=
  Re.Alt
    (Re.seq [Re.WordB; Re.Rep Re.Digit 1 (Some 2); Re.OneOf "/-";
             Re.Rep Re.Digit 1 (Some 2); Re.OneOf "/-";
             Re.Rep Re.Digit 2 (Some 4); Re.WordB])
    (Re.seq [Re.WordB; Re.Rep Re.Digit 4 (Some 4); Re.WordB]).

(** [(?:,\d{3})*(?:\.\d{2})?] *)
Definition amount_tail : Re.re :=
  Re.Seq (Re.star (Re.Seq (Re.Lit ",") (Re.Rep Re.Digit 3 (Some 3))))
         (Re.opt (Re.Seq (Re.Lit ".") (Re.Rep Re.Digit 2 (Some 2)))).

(** [r'\$\d+(?:,\d{3})*(?:\.\d{2})?|\d+(?:,\d{3})*(?:\.\d{2})?\s*(?:USD|dollars?|cents?)'] *)
Definition money_pattern : Re.re :=
  Re.Alt
    (Re.seq [Re.Lit "$"; Re.plus Re.Digit; amount_tail])
    (Re.seq [Re.plus Re.Digit; amount_tail; Re.star Re.Space;
             Re.Alt (Re.lit "USD")
               (Re.Alt (Re.Seq (Re.lit "dollar") (Re.opt (Re.Lit "s")))
                       (Re.Seq (Re.lit "cent") (Re.opt (Re.Lit "s"))))]).

Definition legal_terms : list string :=
  ["contract"; "agreement"; "liability"; "indemnity"; "warranty";
   "termination"; "jurisdiction"; "governing law"].

(** [process_text] is only called when the pipeline is loaded. *)
Definition process_text (nlp : Language) (text : string) : Doc := nlp text.

(** The sentences of the fallback mode:
    [[s.strip() for s in re.split(r'[.!?]+', text) if len(s.strip()) > 10]] *)
Definition fallback_sentences (text : string) : list string :=
  let sentences := Re.split false sentence_end text in
  strip <$> filter (λ s, 10 < String.length (strip s)) sentences.

Definition extract_key_clauses (nlp : option Language) (text : string)
    : list string :=
  match nlp with
  | None =>
      let clauses := fallback_sentences text in
      take 10 clauses
  | Some nlp =>
      let doc := process_text nlp text in
      let sentences := sents doc in
      let clauses :=
        (λ sentence, strip (span_text sentence))
          <$> filter (λ sentence : Span, 10 < length sentence) sentences in
      take 10 clauses
  end.

(** [Counter(words)] *)
Definition Counter (words : list string) : gmap string nat :=
  foldl (λ m w, <[w := S (default 0 (m !! w))]> m) ∅ words.

(** [sorted(l, key=key, reverse=True)]: descending, and stable. *)
Fixpoint insert_desc {A} (key : A → nat) (x : A) (l : list A) : list A :=
  match l with
  | [] => [x]
  | y :: r => if (key x <? key y)%nat then y :: insert_desc key x r else x :: l
  end.

Definition sorted_desc {A} (key : A → nat) (l : list A) : list A :=
  foldr (insert_desc key) [] l.

(** [heapq.nlargest(n, l, key=key)] *)
Definition nlargest {A} (n : Z) (key : A → nat) (l : list A) : list A :=
  take (Z.to_nat n) (sorted_desc key l).

Definition summarize_text (nlp : option Language) (text : string)
    (num_sentences : option Z) : string :=
  let num_sentences := default 5%Z num_sentences in
  match nlp with
  | None =>
      let sentences := fallback_sentences text in
      join ". " (slice_to num_sentences sentences)
  | Some nlp =>
      let doc := process_text nlp text in
      let sentences := sents doc in
      let word_frequencies :=
        Counter ((λ token, lower (Spacy.text token))
                   <$> filter (λ token, is_alpha token = true ∧ is_stop token = false)
                         (tokens doc)) in
      let sentence_scores (sent : Span) : nat :=
        sum_list ((λ word, default 0 (word_frequencies !! lower (Spacy.text word)))
                    <$> sent) in
      let summarized_sentences := nlargest num_sentences sentence_scores sentences in
      join " " (span_text <$> summarized_sentences)
  end.

Definition detect_risks `{PySet} (nlp : option Language) (text : string)
    : list string :=
  match nlp with
  | None =>
      let text_lower := lower text in
      list_set (filter (λ word, str_in word text_lower = true) RISK_WORDS)
  | Some nlp =>
      let doc := process_text nlp (lower text) in
      list_set (Spacy.text <$> filter (λ token, Spacy.text token ∈ RISK_WORDS) (tokens doc))
  end.

Definition empty_entities : gmap string (list string) :=
  <["LEGAL_TERMS" := []]> (<["MONETARY" := []]> (<["DATES" := []]>
    (<["ORGANIZATIONS" := []]> (<["PERSONS" := []]> ∅)))).

Definition append_to (key value : string) (entities : gmap string (list string))
    : gmap string (list string) :=
  alter (λ l, l ++ [value]) key entities.

(** One round of the loop over [doc.ents]. *)
Definition route (entities : gmap string (list string)) (ent : Ent)
    : gmap string (list string) :=
  if bool_decide (label_ ent = "PERSON") then append_to "PERSONS" (ent_text ent) entities
  else if bool_decide (label_ ent = "ORG") then append_to "ORGANIZATIONS" (ent_text ent) entities
  else if bool_decide (label_ ent = "DATE") then append_to "DATES" (ent_text ent) entities
  else if bool_decide (label_ ent = "MONEY") then append_to "MONETARY" (ent_text ent) entities
  else entities.

(** The buckets before duplicates are removed. *)
Definition raw_entities `{PySet} (nlp : option Language) (text : string)
    : gmap string (list string) :=
  let entities := empty_entities in
  match nlp with
  | None =>
      let entities := <["DATES" := list_set (Re.findall false date_pattern text)]> entities in
      let entities := <["MONETARY" := list_set (Re.findall true money_pattern text)]> entities in
      let text_lower := lower text in
      <["LEGAL_TERMS" := filter (λ term, str_in term text_lower = true) legal_terms]> entities
  | Some nlp =>
      let doc := process_text nlp text in
      foldl route entities (ents doc)
  end.

Definition extract_legal_entities `{PySet} (nlp : option Language) (text : string)
    : gmap string (list string) :=
  (λ bucket, take 10 (list_set bucket)) <$> raw_entities nlp text.

(** [issues + [message]] when [missing] holds. *)
Definition append_if (missing : bool) (message : string) (issues : list string)
    : list string :=
  if missing then issues ++ [message] else issues.

Definition check_compliance (text : string) : list string :=
  let compliance_issues := [] in
  let text_lower := lower text in
  let compliance_issues :=
    append_if (negb (str_in "governing law" text_lower) && negb (str_in "jurisdiction" text_lower))
      "Missing governing law or jurisdiction clause" compliance_issues in
  let compliance_issues :=
    append_if (negb (str_in "termination" text_lower))
      "No termination clause found" compliance_issues in
  let compliance_issues :=
    append_if (negb (str_in "confidential" text_lower) && negb (str_in "proprietary" text_lower))
      "No confidentiality or proprietary information clause" compliance_issues in
  let compliance_issues :=
    append_if (negb (str_in "liability" text_lower))
      "Liability terms not clearly defined" compliance_issues in
  let compliance_issues :=
    append_if (negb (str_in "signature" text_lower) && negb (str_in "signed" text_lower))
      "Document may lack proper signature requirements" compliance_issues in
  compliance_issues.

(** The items of [Counter(words)], in the order in which the keys were
    first seen. *)
Fixpoint bump (w : string) (items : list (string * nat)) : list (string * nat) :=
  match items with
  | [] => [(w, 1)]
  | (k, n) :: r => if decide (k = w) then (k, S n) :: r else (k, n) :: bump w r
  end.

Definition Counter_items (words : list string) : list (string * nat) :=
  foldl (λ items w, bump w items) [] words.

(** [Counter(words).most_common()] *)
Definition most_common (words : list string) : list (string * nat) :=
  sorted_desc snd (Counter_items words).

(** What [visualize_key_clauses_frequency] shows: the bar chart of the
    labels and their values, or the notice that there is nothing to show. *)
Inductive Shown : Type :=
| BarChart (labels : list string) (values : list nat)
| NoClauses.

Definition visualize_key_clauses_frequency (clauses : list string) : Shown :=
  let common_clauses := most_common clauses in
  match common_clauses with
  | _ :: _ => BarChart common_clauses.*1 common_clauses.*2
  | [] => NoClauses
  end.

(** The figure "Sentences" of the document statistics of [main]:
    [len(re.split(r'[.!?]+', text))]. *)
Definition sentences_metric (text : string) : nat :=
  length (Re.split false sentence_end text).

End App.

(** ** The specification's own words, as definitions *)

Module Spec.
Import PyStr Spacy App.

(** One of the sentence terminators [.], [!], [?]. *)
Definition is_end (c : ascii) : bool := Re.mem c ".!?".

(** The text between maximal runs of terminators; [in_sep] says that the
    character before was a terminator. *)
Fixpoint pieces (in_sep : bool) (s : string) : list string :=
  match s with
  | EmptyString => [EmptyString]
  | String c r =>
      if is_end c then
        if in_sep then pieces true r else EmptyString :: pieces true r
      else Re.cons_head c (pieces false r)
  end.

(** The number of terminators at the start of [s]. *)
Fixpoint run_length (s : string) : nat :=
  match s with
  | String c r => if is_end c then S (run_length r) else 0
  | EmptyString => 0
  end.

Fixpoint all_chars (ok : ascii → bool) (s : string) : bool :=
  match s with
  | EmptyString => true
  | String c r => ok c && all_chars ok r
  end.

(** [p0 s1 p1 ... sn pn]: pieces with the separators between them. *)
Fixpoint interleave (p0 : string) (rest : list (string * string)) : string :=
  match rest with
  | [] => p0
  | (sep, p) :: rest => p0 +:+ sep +:+ interleave p rest
  end.

(** The separators are non-empty runs of terminators, the pieces hold no
    terminator, and only the last piece after a separator can be empty. *)
Fixpoint well_cut (rest : list (string * string)) : Prop :=
  match rest with
  | [] => True
  | (sep, p) :: rest =>
      sep ≠ "" ∧ all_chars is_end sep = true
      ∧ all_chars (λ c, negb (is_end c)) p = true
      ∧ (p = "" → rest = []) ∧ well_cut rest
  end.

(** A string that does not begin with white space. *)
Definition tight_head (s : string) : Prop :=
  match s with
  | String c _ => isspace c = false
  | EmptyString => True
  end.

(** The five keys of the entity map. *)
Definition bucket_names : gset string :=
  list_to_set ["PERSONS"; "ORGANIZATIONS"; "DATES"; "MONETARY"; "LEGAL_TERMS"].

(** The qualifying sentences: the trimmed pieces of more than ten
    characters, in document order. *)
Definition qualifying_sentences (text : string) : list string :=
  filter (λ s, 10 < String.length s) (strip <$> pieces false text).

(** The five rules of the compliance checker, in order: the condition on
    the lowercased text under which the message is issued. *)
Definition compliance_rules : list ((string → bool) * string) :=
  [ (λ t, negb (str_in "governing law" t) && negb (str_in "jurisdiction" t),
     "Missing governing law or jurisdiction clause");
    (λ t, negb (str_in "termination" t),
     "No termination clause found");
    (λ t, negb (str_in "confidential" t) && negb (str_in "proprietary" t),
     "No confidentiality or proprietary information clause");
    (λ t, negb (str_in "liability" t),
     "Liability terms not clearly defined");
    (λ t, negb (str_in "signature" t) && negb (str_in "signed" t),
     "Document may lack proper signature requirements") ].

Definition issues_by_rules (text : string) : list string :=
  let text_lower := lower text in
  snd <$> filter (λ rule, rule.1 text_lower = true) compliance_rules.

(** The text of the specification's entity example. *)
Definition example_text : string :=
  "This is a test contract. It was signed on 01/02/2020 for $500.00. Governing law is California. Termination occurs in jurisdiction X. Liability is limited. Confidential information is protected.".

(** The least number of characters that a match of [a] takes. *)
Fixpoint min_len (a : Re.re) : nat :=
  match a with
  | Re.Eps | Re.WordB => 0
  | Re.Lit _ | Re.OneOf _ | Re.Digit | Re.Space => 1
  | Re.Seq a b => min_len a + min_len b
  | Re.Alt a b => min_len a `min` min_len b
  | Re.Rep a lo _ => lo * min_len a
  end.

(** The greatest number of characters that a match of [a] takes, when
    there is one. *)
Fixpoint max_len (a : Re.re) : option nat :=
  match a with
  | Re.Eps | Re.WordB => Some 0
  | Re.Lit _ | Re.OneOf _ | Re.Digit | Re.Space => Some 1
  | Re.Seq a b => m ← max_len a; n ← max_len b; Some (m + n)
  | Re.Alt a b => m ← max_len a; n ← max_len b; Some (m `max` n)
  | Re.Rep a _ (Some hi) => m ← max_len a; Some (hi * m)
  | Re.Rep _ _ None => None
  end.

(** [x] occurs in [s]. *)
Definition occurs (x s : string) : Prop := ∃ pre post, s = pre +:+ x +:+ post.

(** The number of occurrences of [w] in the list [l]. *)
Definition count (w : string) (l : list string) : nat :=
  length (filter (λ x, x = w) l).

(** The weight of a token in the summarizer: the number of alphabetic
    tokens of the document, stop words apart, with the same lowercased
    text. *)
Definition token_weight (doc : Doc) (word : Token) : nat :=
  length (filter (λ token, (is_alpha token = true ∧ is_stop token = false)
                           ∧ lower (Spacy.text token) = lower (Spacy.text word))
            (tokens doc)).

(** The score of a sentence: the sum of the weights of its tokens. *)
Definition sentence_score (doc : Doc) (sent : Span) : nat :=
  sum_list (token_weight doc <$> sent).

(** The number of maximal runs of terminators in [s]; [in_sep] says that
    the character before was a terminator. *)
Fixpoint count_runs (in_sep : bool) (s : string) : nat :=
  match s with
  | EmptyString => 0
  | String c r =>
      if is_end c then (if in_sep then 0 else 1) + count_runs true r
      else count_runs false r
  end.

(** The five messages of the compliance checker, in the order of the rules. *)
Definition compliance_messages : list string := compliance_rules.*2.

(** The buckets that the pipeline fills, each with the entity label that
    is routed to it. *)
Definition routes : list (string * string) :=
  [("PERSONS", "PERSON"); ("ORGANIZATIONS", "ORG"); ("DATES", "DATE");
   ("MONETARY", "MONEY")].

(** From the position [p] to the position [q] the matcher has taken
    between [lo] and [hi] characters of the subject. *)
Definition takes (lo : nat) (hi : option nat) (p q : Re.pos) : Prop :=
  ∃ pre, p.2 = pre +:+ q.2 ∧ lo ≤ String.length pre
         ∧ ∀ M, hi = Some M → String.length pre ≤ M.

(** The items of a counter after the words [seen]. *)
Definition counted (items : list (string * nat)) (seen : list string) : Prop :=
  NoDup items.*1
  ∧ (∀ k, k ∈ items.*1 ↔ k ∈ seen)
  ∧ Forall (λ item, item.2 = count item.1 seen) items
  ∧ sum_list items.*2 = length seen.

End Spec.

(** ** Concrete interpreters and pipelines, for the examples *)

Module Examples.
Import PyStr Spacy App.

(** An interpreter whose sets iterate in insertion order. *)
Definition insertion_order : PySet := {|
  list_set := remove_dups;
  list_set_NoDup := NoDup_remove_dups;
  list_set_elem := λ l x, elem_of_remove_dups l x
|}.

(** An interpreter whose sets iterate in the opposite order. *)
Definition reverse_order : PySet.
Proof.
  refine {| list_set := λ l, reverse (remove_dups l) |}.
  - intros l. rewrite reverse_Permutation. apply NoDup_remove_dups.
  - intros l x. rewrite elem_of_reverse. apply elem_of_remove_dups.
Defined.

Definition word (s : string) : Token :=
  {| text := s; whitespace_ := ""; is_alpha := false; is_stop := false |}.

Definition newline : string := String "010" "".

(** Ten opening brackets and a line break. *)
Definition bracket_text : string := "((((((((((" +:+ newline.

(** A pipeline that reads [bracket_text] as one sentence of eleven tokens:
    the ten brackets and the white-space token of the line break. *)
Definition bracket_nlp : Language := λ text,
  if decide (text = bracket_text)
  then {| sents := [replicate 10 (word "(") ++ [word newline]]; ents := [] |}
  else {| sents := []; ents := [] |}.

End Examples.


(** ** Properties of the string primitives *)

Section StrFacts.
Import PyStr Spec.

Lemma app_cons (x : ascii) (a b : string) :
  String x a +:+ b = String x (a +:+ b).
Proof. reflexivity. Qed.

Lemma app_empty_r (s : string) : s +:+ "" = s.
Proof. induction s as [|c s IH]; [done|]. by rewrite app_cons, IH. Qed.

Lemma app_assoc (a b c : string) : (a +:+ b) +:+ c = a +:+ b +:+ c.
Proof. induction a as [|x a IH]; [done|]. by rewrite !app_cons, IH. Qed.

Lemma length_app (a b : string) :
  String.length (a +:+ b) = String.length a + String.length b.
Proof. induction a as [|x a IH]; [done|]. rewrite app_cons. cbn. by rewrite IH. Qed.

Lemma lower_app (a b : string) : lower (a +:+ b) = lower a +:+ lower b.
Proof. induction a as [|x a IH]; [done|]. rewrite app_cons. cbn. by rewrite IH. Qed.

(** [startswith p s] holds exactly when [s] is [p] followed by something. *)
Lemma startswith_spec (p s : string) :
  startswith p s = true ↔ ∃ r, s = p +:+ r.
Proof.
  revert s. induction p as [|a p IH]; intros s; cbn.
  - split; [intros _; by exists s | done].
  - destruct s as [|b s]; cbn.
    + split; [done | by intros [r ?]].
    + rewrite andb_true_iff, bool_decide_eq_true, IH. split.
      * intros [-> [r ->]]. by exists r.
      * intros [r [= -> ->]]. split; [done | by exists r].
Qed.

(** [str_in needle hay] holds exactly when [needle] occurs in [hay]. *)
Lemma str_in_spec (needle hay : string) :
  str_in needle hay = true ↔ ∃ a b, hay = a +:+ needle +:+ b.
Proof.
  induction hay as [|c hay IH]; cbn.
  - rewrite orb_false_r, startswith_spec. split.
    + intros [r ->]. by exists "", r.
    + intros [[|x a] [b E]]; [by exists b | done].
  - rewrite orb_true_iff, startswith_spec, IH. split.
    + intros [[r ->] | (a & b & ->)].
      * by exists "", r.
      * by exists (String c a), b.
    + intros [[|x a] [b E]].
      * left. by exists b.
      * right. injection E as -> ->. by exists a, b.
Qed.

Lemma str_in_lower (needle hay : string) :
  str_in needle hay = true → str_in (lower needle) (lower hay) = true.
Proof.
  rewrite !str_in_spec. intros (a & b & ->).
  exists (lower a), (lower b). by rewrite !lower_app.
Qed.

Lemma lstrip_tight (s : string) : tight_head (lstrip s).
Proof.
  induction s as [|c s IH]; cbn; [done|].
  destruct (isspace c) eqn:E; [done | by cbn].
Qed.

Lemma lstrip_id (s : string) : tight_head s → lstrip s = s.
Proof. destruct s as [|c s]; cbn; [done|]. by intros ->. Qed.

Lemma rstrip_cons (c : ascii) (s : string) :
  rstrip (String c s) =
  match rstrip s with
  | EmptyString => if isspace c then EmptyString else String c EmptyString
  | r' => String c r'
  end.
Proof. reflexivity. Qed.

Lemma rstrip_tight (s : string) : tight_head s → tight_head (rstrip s).
Proof.
  destruct s as [|c s]; [done|]. rewrite rstrip_cons. cbn. intros E.
  destruct (rstrip s); [by rewrite E | done].
Qed.

Lemma rstrip_idem (s : string) : rstrip (rstrip s) = rstrip s.
Proof.
  induction s as [|c s IH]; [done|].
  rewrite (rstrip_cons c s).
  destruct (rstrip s) as [|d r] eqn:E.
  - destruct (isspace c) eqn:Ec; cbn; [done | by rewrite Ec].
  - by rewrite (rstrip_cons c (String d r)), IH.
Qed.

(** Trimming a trimmed string changes nothing. *)
Lemma strip_idem (s : string) : strip (strip s) = strip s.
Proof.
  unfold strip.
  rewrite (lstrip_id (rstrip (lstrip s))) by apply rstrip_tight, lstrip_tight.
  apply rstrip_idem.
Qed.

Lemma slice_to_nonneg {A} (n : Z) (l : list A) :
  (0 ≤ n)%Z → slice_to n l = take (Z.to_nat n) l.
Proof. intros Hn. unfold slice_to. by rewrite (proj2 (Z.leb_le 0 n) Hn). Qed.

End StrFacts.

(** ** Properties of [list(set(..))] *)

Section SetFacts.
Context `{PySet}.

Lemma list_set_length (l : list string) : length (list_set l) ≤ length l.
Proof.
  apply submseteq_length, NoDup_submseteq; [apply list_set_NoDup|].
  intros x. by rewrite list_set_elem.
Qed.

Lemma list_set_nil : list_set [] = [].
Proof.
  pose proof (list_set_length []) as Hl.
  destruct (list_set []); [done | cbn in Hl; lia].
Qed.

(** A bucket after the clean-up loop: [list(set(l))[:10]]. *)
Lemma bucket_NoDup (l : list string) : NoDup (take 10 (list_set l)).
Proof. apply (sublist_NoDup _ (list_set l)); [apply list_set_NoDup | apply sublist_take]. Qed.

Lemma bucket_length (l : list string) : length (take 10 (list_set l)) ≤ 10.
Proof. rewrite length_take. lia. Qed.

Lemma bucket_elem (l : list string) (x : string) :
  x ∈ take 10 (list_set l) → x ∈ l.
Proof.
  intros Hx. apply (list_set_elem l x).
  eapply elem_of_sublist; [done | apply sublist_take].
Qed.

Lemma bucket_small (l : list string) (x : string) :
  length l ≤ 10 → x ∈ take 10 (list_set l) ↔ x ∈ l.
Proof.
  intros Hl. rewrite take_ge; [apply list_set_elem|].
  pose proof (list_set_length l). lia.
Qed.

End SetFacts.

(** ** [re.split(r'[.!?]+', text)] cuts the text at the runs of terminators *)

Section SplitFacts.
Import PyStr Spec App.

Local Abbreviation step := (Re.run false (Re.OneOf ".!?")).

Lemma step_end (b : option ascii) (c : ascii) (r : string) :
  step (b, String c r) = if is_end c then [(Some c, r)] else [].
Proof. reflexivity. Qed.

Lemma rep_succ (f : Re.pos → list Re.pos) (lo fuel : nat) (p : Re.pos) :
  Re.rep f lo (S fuel) p =
  (f p ≫= Re.rep f (pred lo) fuel) ++ match lo with 0 => [p] | S _ => [] end.
Proof. reflexivity. Qed.

Lemma bind_one {A B} (f : A → list B) (x : A) : [x] ≫= f = f x.
Proof. cbn. apply app_nil_r. Qed.

(** The first match of a repetition of terminators takes the whole run. *)
Lemma rep_end_head (fuel : nat) :
  ∀ (lo : nat) (b : option ascii) (s : string),
    lo ≤ run_length s → String.length s ≤ fuel →
    ∃ q qs, Re.rep step lo fuel (b, s) = q :: qs
            ∧ String.length q.2 + run_length s = String.length s.
Proof.
  induction fuel as [|fuel IH]; intros lo b s Hlo Hlen.
  - destruct s; cbn in Hlen; [|lia]. cbn in Hlo.
    replace lo with 0 by lia. by exists (b, ""), [].
  - destruct s as [|c r].
    + cbn in Hlo. replace lo with 0 by lia. by exists (b, ""), [].
    + rewrite rep_succ, step_end. cbn [run_length] in *.
      destruct (is_end c).
      * destruct (IH (pred lo) (Some c) r) as (q & qs & E & Hq);
          [lia | cbn in Hlen; lia |].
        exists q, (qs ++ match lo with 0 => [(b, String c r)] | S _ => [] end).
        split; [|cbn; lia].
        by rewrite bind_one, E.
      * replace lo with 0 by lia. by exists (b, String c r), [].
Qed.

Lemma run_sentence_end (b : option ascii) (s : string) :
  0 < run_length s →
  ∃ q qs, Re.run false sentence_end (b, s) = q :: qs
          ∧ Re.consumed s q = run_length s.
Proof.
  intros Hs.
  destruct (rep_end_head (String.length s) 1 b s) as (q & qs & E & Hq);
    [lia | lia |].
  exists q, qs. split; [exact E | unfold Re.consumed; lia].
Qed.

Lemma run_sentence_end_nil (b : option ascii) (s : string) :
  run_length s = 0 → Re.run false sentence_end (b, s) = [].
Proof.
  destruct s as [|c r]; [done|]. cbn [run_length]. intros Hs.
  change (Re.run false sentence_end (b, String c r))
    with (Re.rep step 1 (S (String.length r)) (b, String c r)).
  rewrite rep_succ, step_end. by destruct (is_end c).
Qed.

Lemma cut_skip (ic : bool) (a : Re.re) (b : option ascii) (c : ascii)
    (r : string) (k : nat) :
  Re.cut ic a b (String c r) (S k) = Re.cut ic a (Some c) r k.
Proof. reflexivity. Qed.

Lemma cut_no_match (ic : bool) (a : Re.re) (b : option ascii) (c : ascii)
    (r : string) :
  Re.run ic a (b, String c r) = [] →
  Re.cut ic a b (String c r) 0 = Re.cons_head c (Re.cut ic a (Some c) r 0).
Proof. intros E. cbn [Re.cut]. by rewrite E. Qed.

Lemma cut_match (ic : bool) (a : Re.re) (b : option ascii) (c : ascii)
    (r : string) (q : Re.pos) (qs : list Re.pos) :
  Re.run ic a (b, String c r) = q :: qs →
  Re.consumed (String c r) q ≠ 0 →
  Re.cut ic a b (String c r) 0 =
  "" :: Re.cut ic a (Some c) r (pred (Re.consumed (String c r) q)).
Proof.
  intros E Hq. cbn [Re.cut]. rewrite E.
  by rewrite bool_decide_eq_false_2.
Qed.

Lemma pieces_sep (s : string) :
  run_length s = 0 → pieces true s = pieces false s.
Proof.
  destruct s as [|c r]; [done|]. cbn [run_length pieces].
  by destruct (is_end c).
Qed.

Lemma cut_sentence_end (s : string) :
  ∀ b, Re.cut false sentence_end b s 0 = pieces false s
       ∧ Re.cut false sentence_end b s (run_length s) = pieces true s.
Proof.
  induction s as [|c r IH]; intros b; [done|].
  assert (Re.cut false sentence_end b (String c r) 0 = pieces false (String c r))
    as E0.
  { destruct (is_end c) eqn:Ec.
    - destruct (run_sentence_end b (String c r)) as (q & qs & E & Hq).
      { cbn [run_length]. rewrite Ec. lia. }
      cbn [run_length] in Hq. rewrite Ec in Hq.
      rewrite (cut_match _ _ _ _ _ q qs E) by (rewrite Hq; lia).
      rewrite Hq. cbn [pieces pred]. rewrite Ec. f_equal. apply IH.
    - rewrite cut_no_match
        by (apply run_sentence_end_nil; cbn [run_length]; by rewrite Ec).
      cbn [pieces]. rewrite Ec. f_equal. apply IH. }
  split; [exact E0|].
  cbn [run_length pieces]. destruct (is_end c) eqn:Ec.
  - rewrite cut_skip. apply IH.
  - rewrite E0. cbn [pieces]. by rewrite Ec.
Qed.

(** [re.split(r'[.!?]+', text)] is the list of the pieces between the
    maximal runs of terminators. *)
Lemma split_sentence_end (text : string) :
  Re.split false sentence_end text = pieces false text.
Proof. apply cut_sentence_end. Qed.

End SplitFacts.

(** ** The shape of the pieces *)

Section PiecesFacts.
Import PyStr Spec App.

Lemma interleave_cons (c : ascii) (p0 : string) (rest : list (string * string)) :
  interleave (String c p0) rest = String c (interleave p0 rest).
Proof. by destruct rest as [|[sep p] rest]. Qed.

Lemma pieces_shape (s : string) :
  (∃ p0 rest,
      pieces false s = p0 :: rest.*2 ∧ s = interleave p0 rest
      ∧ all_chars (λ c, negb (is_end c)) p0 = true ∧ well_cut rest)
  ∧ (∃ sep0 p0 rest,
      pieces true s = p0 :: rest.*2 ∧ s = sep0 +:+ interleave p0 rest
      ∧ all_chars is_end sep0 = true
      ∧ all_chars (λ c, negb (is_end c)) p0 = true
      ∧ (p0 = "" → rest = []) ∧ well_cut rest).
Proof.
  induction s as [|c r [IHf IHt]].
  { split; [by exists "", [] | by exists "", "", []]. }
  cbn [pieces]. destruct (is_end c) eqn:Ec.
  - destruct IHt as (sep0 & p0 & rest & E & -> & Hsep & Hp & Hlast & Hrest).
    split.
    + exists "", ((String c sep0, p0) :: rest).
      rewrite E. repeat split; try done; cbn [all_chars]; by rewrite Ec.
    + exists (String c sep0), p0, rest.
      repeat split; try done; cbn [all_chars]; by rewrite Ec.
  - destruct IHf as (p0 & rest & E & -> & Hp & Hrest).
    rewrite E. cbn [Re.cons_head]. split.
    + exists (String c p0), rest.
      rewrite interleave_cons. repeat split; try done; cbn [all_chars]; by rewrite Ec.
    + exists "", (String c p0), rest.
      rewrite interleave_cons. repeat split; try done; cbn [all_chars]; by rewrite Ec.
Qed.

Lemma fmap_filter_comm {A B} (f : A → B) (P : A → Prop) (Q : B → Prop)
    `{∀ x, Decision (P x)} `{∀ y, Decision (Q y)} (l : list A) :
  (∀ x, P x ↔ Q (f x)) → f <$> filter P l = filter Q (f <$> l).
Proof.
  intros HPQ. induction l as [|x l IH]; [done|].
  rewrite fmap_cons, !filter_cons.
  destruct (decide (P x)) as [HP|HP], (decide (Q (f x))) as [HQ|HQ];
    rewrite ?fmap_cons, IH; try done; by rewrite HPQ in HP.
Qed.

(** The sentences of the fallback mode are the qualifying sentences. *)
Lemma fallback_sentences_qualifying (text : string) :
  fallback_sentences text = qualifying_sentences text.
Proof.
  unfold fallback_sentences, qualifying_sentences.
  rewrite split_sentence_end.
  by apply fmap_filter_comm.
Qed.

End PiecesFacts.

(** ** The compliance checker *)

Section Compliance.
Import PyStr Spec App.

Lemma check_compliance_lower (text : string) :
  check_compliance text = snd <$> filter (λ rule, rule.1 (lower text) = true) compliance_rules.
Proof.
  unfold check_compliance, compliance_rules.
  generalize (lower text) as t. intros t.
  rewrite !filter_cons, filter_nil. cbn [fst snd].
  destruct (str_in "governing law" t), (str_in "jurisdiction" t),
    (str_in "termination" t), (str_in "confidential" t),
    (str_in "proprietary" t), (str_in "liability" t),
    (str_in "signature" t), (str_in "signed" t); reflexivity.
Qed.

(** A text in which the five phrases occur, in whatever case, passes. *)
Lemma check_compliance_pass (text : string) :
  Forall (λ phrase, str_in phrase (lower text) = true)
    ["governing law"; "termination"; "confidential"; "liability"; "signature"] →
  check_compliance text = [].
Proof.
  intros Hall. rewrite !Forall_cons in Hall.
  destruct Hall as (H1 & H2 & H3 & H4 & H5 & _).
  unfold check_compliance. by rewrite H1, H2, H3, H4, H5.
Qed.

End Compliance.

(** C3: for every text, [check_compliance] returns the list obtained from
    the five rules, evaluated on the lowercased text in the order governing
    law, termination, confidentiality, liability, signature, each rule
    contributing its fixed message when its condition holds; on the empty
    text it returns the five messages in that order; and on a text that
    contains "governing law", "termination", "confidential", "liability" and
    "signature" it returns the empty list. *)
Theorem check_compliance_rules :
  (∀ text, App.check_compliance text = Spec.issues_by_rules text)
  ∧ App.check_compliance "" =
      ["Missing governing law or jurisdiction clause";
       "No termination clause found";
       "No confidentiality or proprietary information clause";
       "Liability terms not clearly defined";
       "Document may lack proper signature requirements"]
  ∧ (∀ text,
       Forall (λ phrase, PyStr.str_in phrase text = true)
         ["governing law"; "termination"; "confidential"; "liability"; "signature"] →
       App.check_compliance text = []).
Proof.
  split; [exact check_compliance_lower|]. split; [reflexivity|].
  intros text Hall. apply check_compliance_pass.
  rewrite !Forall_cons in Hall. destruct Hall as (H1 & H2 & H3 & H4 & H5 & _).
  rewrite !Forall_cons.
  pose proof (str_in_lower _ _ H1). pose proof (str_in_lower _ _ H2).
  pose proof (str_in_lower _ _ H3). pose proof (str_in_lower _ _ H4).
  pose proof (str_in_lower _ _ H5). by repeat split.
Qed.

Lemma check_compliance_rules_witness :
  Forall (λ phrase, PyStr.str_in phrase
            "signature page: liability, confidential terms, termination and governing law" = true)
    ["governing law"; "termination"; "confidential"; "liability"; "signature"]
  ∧ App.check_compliance
      "signature page: liability, confidential terms, termination and governing law" = [].
Proof.
  assert (Forall (λ phrase, PyStr.str_in phrase
            "signature page: liability, confidential terms, termination and governing law" = true)
    ["governing law"; "termination"; "confidential"; "liability"; "signature"]) as Hall.
  { repeat constructor. }
  split; [exact Hall|].
  exact (proj2 (proj2 check_compliance_rules) _ Hall).
Defined.

(** C9: [check_compliance] is case-insensitive: two texts that are equal
    after lowercasing get the same list of issues. *)
Theorem check_compliance_case_insensitive (text1 text2 : string) :
  PyStr.lower text1 = PyStr.lower text2 →
  App.check_compliance text1 = App.check_compliance text2.
Proof.
  intros E. unfold App.check_compliance. by rewrite E.
Qed.

Lemma check_compliance_case_insensitive_witness :
  PyStr.lower "Signed; Governing Law: Ohio" = PyStr.lower "SIGNED; GOVERNING LAW: OHIO"
  ∧ App.check_compliance "Signed; Governing Law: Ohio"
    = App.check_compliance "SIGNED; GOVERNING LAW: OHIO".
Proof.
  split; [reflexivity|].
  apply check_compliance_case_insensitive. reflexivity.
Defined.

(** ** Sentences, clauses and summaries *)

Section Sentences.
Import PyStr Spec Spacy App.

Lemma qualifying_sentences_trimmed (text : string) :
  Forall (λ c, strip c = c ∧ 10 < String.length c) (qualifying_sentences text).
Proof.
  apply Forall_forall. intros c Hc.
  apply list_elem_of_filter in Hc as [Hlen Hc].
  apply list_elem_of_fmap in Hc as (p & -> & _).
  split; [apply strip_idem | done].
Qed.

Lemma fallback_sentences_elem (text s : string) :
  s ∈ fallback_sentences text ↔
  ∃ p, p ∈ Re.split false sentence_end text ∧ s = strip p
       ∧ 10 < String.length (strip p).
Proof.
  unfold fallback_sentences. rewrite list_elem_of_fmap. split.
  - intros (p & -> & Hp). apply list_elem_of_filter in Hp as [Hlen Hp]. eauto.
  - intros (p & Hp & -> & Hlen). exists p. split; [done|].
    by apply list_elem_of_filter.
Qed.

End Sentences.

(** C4 (amended): the fallback sentence splitter cuts the text at the
    maximal runs of one or more of '.', '!' and '?', trims each piece, and
    discards exactly the pieces of at most 10 characters after trimming:
    every piece whose trimmed length is 11 or more is kept, in order. *)
Theorem fallback_sentences_cut (text : string) :
  let parts := Re.split false App.sentence_end text in
  (∃ p0 rest,
      parts = p0 :: rest.*2 ∧ text = Spec.interleave p0 rest
      ∧ Spec.all_chars (λ c, negb (Spec.is_end c)) p0 = true
      ∧ Spec.well_cut rest)
  ∧ App.fallback_sentences text =
      PyStr.strip <$> filter (λ p, 11 ≤ String.length (PyStr.strip p)) parts
  ∧ ∀ s, s ∈ App.fallback_sentences text ↔
         ∃ p, p ∈ parts ∧ s = PyStr.strip p ∧ 11 ≤ String.length (PyStr.strip p).
Proof.
  cbn zeta. split; [|split].
  - rewrite split_sentence_end.
    destruct (pieces_shape text) as [(p0 & rest & E & Ht & Hp & Hrest) _].
    by exists p0, rest.
  - reflexivity.
  - apply fallback_sentences_elem.
Qed.

Lemma fallback_sentences_cut_witness :
  "It was signed on Monday" ∈ App.fallback_sentences "Agreed. It was signed on Monday! Yes".
Proof.
  apply (proj2 (proj2 (fallback_sentences_cut "Agreed. It was signed on Monday! Yes"))).
  exists " It was signed on Monday". split; [|split].
  - replace (Re.split false App.sentence_end "Agreed. It was signed on Monday! Yes")
      with ["Agreed"; " It was signed on Monday"; " Yes"] by (vm_compute; reflexivity).
    apply list_elem_of_further, list_elem_of_here.
  - reflexivity.
  - vm_compute. lia.
Defined.

(** A piece of exactly ten characters is not kept, although it is not
    shorter than 10 characters. *)
Lemma ten_character_piece_discarded :
  "abcdefghij" ∈ Re.split false App.sentence_end "abcdefghij."
  ∧ 10 ≤ String.length (PyStr.strip "abcdefghij")
  ∧ PyStr.strip "abcdefghij" ∉ App.fallback_sentences "abcdefghij.".
Proof.
  replace (Re.split false App.sentence_end "abcdefghij.")
    with ["abcdefghij"; ""] by (vm_compute; reflexivity).
  replace (App.fallback_sentences "abcdefghij.")
    with (@nil string) by (vm_compute; reflexivity).
  split; [apply list_elem_of_here|]. split; [vm_compute; lia|].
  apply not_elem_of_nil.
Qed.

(** C2 (amended): in both modes [extract_key_clauses] returns at most 10
    clauses, the trimmed texts of the first 10 qualifying sentences in
    document order. In fallback mode a sentence qualifies when its trimmed
    text has more than 10 characters, so every returned clause has more than
    10 characters after trimming. With the pipeline a sentence qualifies when
    it has more than 10 tokens, and the clause is its trimmed text. *)
Theorem extract_key_clauses_first_ten (nlp : option Spacy.Language) (text : string) :
  let clauses := App.extract_key_clauses nlp text in
  length clauses ≤ 10
  ∧ match nlp with
    | None =>
        clauses = take 10 (Spec.qualifying_sentences text)
        ∧ Forall (λ c, PyStr.strip c = c ∧ 10 < String.length c) clauses
    | Some m =>
        clauses =
          take 10 ((λ sentence, PyStr.strip (Spacy.span_text sentence))
                     <$> filter (λ sentence : Spacy.Span, 10 < length sentence)
                           (Spacy.sents (m text)))
        ∧ Forall (λ c, PyStr.strip c = c) clauses
    end.
Proof.
  cbn zeta. split.
  - destruct nlp; cbn [App.extract_key_clauses]; rewrite length_take; lia.
  - destruct nlp as [m|]; cbn [App.extract_key_clauses].
    + split; [reflexivity|]. apply Forall_take, Forall_fmap, Forall_forall.
      intros sentence _. apply strip_idem.
    + rewrite fallback_sentences_qualifying. split; [reflexivity|].
      apply Forall_take, qualifying_sentences_trimmed.
Qed.

(** With the pipeline a clause can be short: a sentence of eleven tokens
    whose trimmed text has ten characters is returned. *)
Lemma short_clause_with_pipeline :
  ¬ Forall (λ c, 10 < String.length (PyStr.strip c))
      (App.extract_key_clauses (Some Examples.bracket_nlp) Examples.bracket_text).
Proof.
  replace (App.extract_key_clauses (Some Examples.bracket_nlp) Examples.bracket_text)
    with ["(((((((((("] by (vm_compute; reflexivity).
  intros Hall. apply Forall_cons in Hall as [Hlen _].
  vm_compute in Hlen. lia.
Qed.

(** C5: in fallback mode, for every text and every count [N],
    [summarize_text] returns the first [N] qualifying sentences, in document
    order, joined with ". "; when there are fewer than [N] of them it returns
    them all, joined in the same way; and the count defaults to 5. *)
Theorem summarize_text_fallback (text : string) (N : Z) :
  (0 ≤ N)%Z →
  App.summarize_text None text (Some N) =
    PyStr.join ". " (take (Z.to_nat N) (Spec.qualifying_sentences text))
  ∧ (length (Spec.qualifying_sentences text) ≤ Z.to_nat N →
     App.summarize_text None text (Some N) =
       PyStr.join ". " (Spec.qualifying_sentences text))
  ∧ App.summarize_text None text None = App.summarize_text None text (Some 5%Z).
Proof.
  intros HN.
  assert (App.summarize_text None text (Some N) =
          PyStr.join ". " (take (Z.to_nat N) (Spec.qualifying_sentences text))) as E.
  { unfold App.summarize_text. cbn [default].
    by rewrite fallback_sentences_qualifying, slice_to_nonneg. }
  split; [exact E|]. split; [|reflexivity].
  intros Hfew. by rewrite E, take_ge.
Qed.

Lemma summarize_text_fallback_witness :
  (0 ≤ 2)%Z
  ∧ App.summarize_text None Spec.example_text (Some 2%Z) =
      "This is a test contract. It was signed on 01/02/2020 for $500".
Proof.
  split; [lia|].
  rewrite (proj1 (summarize_text_fallback Spec.example_text 2 ltac:(lia))).
  vm_compute. reflexivity.
Defined.

(** ** Risk terms *)

Section Risks.
Import PyStr Spacy App.
Context `{PySet}.

Lemma detect_risks_elem (nlp : option Language) (text w : string) :
  w ∈ detect_risks nlp text ↔
  match nlp with
  | None => str_in w (lower text) = true ∧ w ∈ RISK_WORDS
  | Some m =>
      w ∈ RISK_WORDS ∧ ∃ token, token ∈ tokens (m (lower text)) ∧ Spacy.text token = w
  end.
Proof.
  destruct nlp as [m|]; cbn [detect_risks]; rewrite list_set_elem.
  - rewrite list_elem_of_fmap. unfold process_text. split.
    + intros (token & -> & Ht). apply list_elem_of_filter in Ht as [Hw Ht]. eauto.
    + intros (Hw & token & Ht & <-). exists token. split; [done|].
      by apply list_elem_of_filter.
  - by rewrite list_elem_of_filter.
Qed.

End Risks.

(** C6: in fallback mode [detect_risks] returns, without repetition, exactly
    the terms of the risk vocabulary that occur in the lowercased text; when
    none of them occurs, the result is empty. *)
Theorem detect_risks_fallback (S : PySet) (text : string) :
  (∀ w, w ∈ App.detect_risks None text ↔
        w ∈ App.RISK_WORDS ∧ PyStr.str_in w (PyStr.lower text) = true)
  ∧ NoDup (App.detect_risks None text)
  ∧ ((∀ w, w ∈ App.RISK_WORDS → PyStr.str_in w (PyStr.lower text) = false) →
     App.detect_risks None text = []).
Proof.
  split; [|split].
  - intros w. rewrite (detect_risks_elem None). tauto.
  - apply list_set_NoDup.
  - intros Hnone. apply elem_of_nil_inv. intros w Hw.
    apply (detect_risks_elem None) in Hw as [Hin Hw].
    by rewrite (Hnone w Hw) in Hin.
Qed.

Lemma detect_risks_fallback_witness :
  (∀ w, w ∈ App.RISK_WORDS →
        PyStr.str_in w (PyStr.lower "The Parties Agree To Meet Weekly") = false)
  ∧ @App.detect_risks Examples.insertion_order None "The Parties Agree To Meet Weekly" = [].
Proof.
  assert (∀ w, w ∈ App.RISK_WORDS →
        PyStr.str_in w (PyStr.lower "The Parties Agree To Meet Weekly") = false) as Hnone.
  { intros w Hw. unfold App.RISK_WORDS in Hw.
    repeat (apply elem_of_cons in Hw as [->|Hw]; [reflexivity|]).
    by apply elem_of_nil in Hw. }
  split; [exact Hnone|].
  exact (proj2 (proj2 (detect_risks_fallback Examples.insertion_order _)) Hnone).
Defined.

(** C8: [detect_risks] yields the same set of risk terms whenever it is
    applied to the same text, whatever the order in which the interpreter's
    sets iterate: two results have the same elements, each once. *)
Theorem detect_risks_same_set (S1 S2 : PySet) (nlp : option Spacy.Language)
    (text : string) :
  list_to_set (@App.detect_risks S1 nlp text)
    =@{gset string} list_to_set (@App.detect_risks S2 nlp text)
  ∧ @App.detect_risks S1 nlp text ≡ₚ @App.detect_risks S2 nlp text.
Proof.
  assert (∀ w, w ∈ @App.detect_risks S1 nlp text ↔ w ∈ @App.detect_risks S2 nlp text)
    as Hsame.
  { intros w. by rewrite !detect_risks_elem. }
  split.
  - apply set_eq. intros w. by rewrite !elem_of_list_to_set.
  - apply NoDup_Permutation; [destruct nlp; apply list_set_NoDup ..| exact Hsame].
Qed.

(** C10: in both modes every element of the list returned by [detect_risks]
    is one of the ten terms of the risk vocabulary. *)
Theorem detect_risks_in_vocabulary (S : PySet) (nlp : option Spacy.Language)
    (text : string) :
  App.RISK_WORDS =
    ["fraud"; "penalty"; "violation"; "risk"; "lawsuit"; "breach";
     "noncompliance"; "litigation"; "regulatory"; "fine"]
  ∧ App.detect_risks nlp text ⊆ App.RISK_WORDS.
Proof.
  split; [reflexivity|].
  intros w Hw. apply detect_risks_elem in Hw. destruct nlp; tauto.
Qed.

(** ** Entity buckets *)

Section Entities.
Import PyStr Spec Spacy App.
Context `{PySet}.

Lemma dom_empty_entities : dom empty_entities = bucket_names.
Proof.
  unfold empty_entities, bucket_names.
  rewrite !dom_insert_L, dom_empty_L. set_solver.
Qed.

Lemma dom_route (entities : gmap string (list string)) (ent : Ent) :
  dom (route entities ent) = dom entities.
Proof.
  unfold route, append_to.
  repeat (case_bool_decide; [apply dom_alter_L|]). done.
Qed.

Lemma dom_foldl_route (l : list Ent) :
  ∀ entities, dom (foldl route entities l) = dom entities.
Proof.
  induction l as [|ent l IH]; intros entities; [done|].
  cbn [foldl]. by rewrite IH, dom_route.
Qed.

Lemma dom_raw_entities (nlp : option Language) (text : string) :
  dom (raw_entities nlp text) = bucket_names.
Proof.
  destruct nlp as [m|]; cbn [raw_entities].
  - by rewrite dom_foldl_route, dom_empty_entities.
  - rewrite !dom_insert_L, dom_empty_entities. unfold bucket_names. set_solver.
Qed.

Lemma extract_legal_entities_lookup (nlp : option Language) (text key : string) :
  extract_legal_entities nlp text !! key =
  (λ bucket, take 10 (list_set bucket)) <$> raw_entities nlp text !! key.
Proof. apply lookup_fmap. Qed.

Lemma raw_dates (text : string) :
  raw_entities None text !! "DATES" =
  Some (list_set (Re.findall false date_pattern text)).
Proof.
  cbn [raw_entities]. rewrite !lookup_insert_ne by done. apply lookup_insert_eq.
Qed.

Lemma raw_monetary (text : string) :
  raw_entities None text !! "MONETARY" =
  Some (list_set (Re.findall true money_pattern text)).
Proof.
  cbn [raw_entities]. rewrite lookup_insert_ne by done. apply lookup_insert_eq.
Qed.

Lemma raw_legal_terms (text : string) :
  raw_entities None text !! "LEGAL_TERMS" =
  Some (filter (λ term, str_in term (lower text) = true) legal_terms).
Proof. cbn [raw_entities]. apply lookup_insert_eq. Qed.

Lemma example_dates :
  extract_legal_entities None example_text !! "DATES" =
  Some (take 10 (list_set (list_set ["01/02/2020"]))).
Proof.
  rewrite extract_legal_entities_lookup, raw_dates.
  by replace (Re.findall false date_pattern example_text)
    with ["01/02/2020"] by (vm_compute; reflexivity).
Qed.

Lemma example_monetary :
  extract_legal_entities None example_text !! "MONETARY" =
  Some (take 10 (list_set (list_set ["$500.00"]))).
Proof.
  rewrite extract_legal_entities_lookup, raw_monetary.
  by replace (Re.findall true money_pattern example_text)
    with ["$500.00"] by (vm_compute; reflexivity).
Qed.

Lemma example_legal_terms :
  extract_legal_entities None example_text !! "LEGAL_TERMS" =
  Some (take 10 (list_set
    ["contract"; "liability"; "termination"; "jurisdiction"; "governing law"])).
Proof.
  rewrite extract_legal_entities_lookup, raw_legal_terms.
  by replace (filter (λ term, str_in term (lower example_text) = true) legal_terms)
    with ["contract"; "liability"; "termination"; "jurisdiction"; "governing law"]
    by (vm_compute; reflexivity).
Qed.

Lemma confidential_not_listed :
  "confidential" ∉
    ["contract"; "liability"; "termination"; "jurisdiction"; "governing law"].
Proof.
  intros Hin.
  repeat (apply elem_of_cons in Hin as [?|Hin]; [done|]).
  by apply elem_of_nil in Hin.
Qed.

Lemma bucket_of_one (x : string) : x ∈ take 10 (list_set (list_set [x])).
Proof.
  pose proof (list_set_length [x]) as Hl. cbn in Hl.
  apply bucket_small; [lia|]. apply list_set_elem, list_elem_of_here.
Qed.

End Entities.

(** C7: in both modes the map returned by [extract_legal_entities] has the
    five buckets PERSONS, ORGANIZATIONS, DATES, MONETARY and LEGAL_TERMS,
    and every bucket is free of duplicates and has at most 10 entries,
    however many matches there are. *)
Theorem entity_buckets_bounded (S : PySet) (nlp : option Spacy.Language)
    (text : string) :
  dom (App.extract_legal_entities nlp text) =@{gset string}
    list_to_set ["PERSONS"; "ORGANIZATIONS"; "DATES"; "MONETARY"; "LEGAL_TERMS"]
  ∧ map_Forall (λ _ bucket, NoDup bucket ∧ length bucket ≤ 10)
      (App.extract_legal_entities nlp text).
Proof.
  split.
  - unfold App.extract_legal_entities. rewrite dom_fmap_L. apply dom_raw_entities.
  - apply map_Forall_fmap, map_Forall_lookup. intros key bucket _.
    split; [apply bucket_NoDup | apply bucket_length].
Qed.

(** C1 (amended): in fallback mode, for the example text, the DATES bucket
    contains "01/02/2020", the MONETARY bucket contains "$500.00", and the
    LEGAL_TERMS bucket contains "contract", "liability", "termination",
    "jurisdiction" and "governing law" and nothing else; "confidential" is
    not a term of the legal vocabulary and is not in the bucket. *)
Theorem example_entities (S : PySet) :
  ∃ dates money terms,
    App.extract_legal_entities None Spec.example_text !! "DATES" = Some dates
    ∧ App.extract_legal_entities None Spec.example_text !! "MONETARY" = Some money
    ∧ App.extract_legal_entities None Spec.example_text !! "LEGAL_TERMS" = Some terms
    ∧ "01/02/2020" ∈ dates
    ∧ "$500.00" ∈ money
    ∧ (∀ term, term ∈ terms ↔
               term ∈ ["contract"; "liability"; "termination"; "jurisdiction";
                       "governing law"])
    ∧ "confidential" ∉ terms.
Proof.
  eexists _, _, _.
  split; [apply example_dates|]. split; [apply example_monetary|].
  split; [apply example_legal_terms|].
  split; [apply bucket_of_one|]. split; [apply bucket_of_one|].
  assert (∀ term,
    term ∈ take 10 (list_set
      ["contract"; "liability"; "termination"; "jurisdiction"; "governing law"]) ↔
    term ∈ ["contract"; "liability"; "termination"; "jurisdiction"; "governing law"])
    as Hterms.
  { intros term. apply bucket_small. cbn. lia. }
  split; [exact Hterms|].
  rewrite Hterms. apply confidential_not_listed.
Qed.

(** "confidential" is not in the LEGAL_TERMS bucket of the example text. *)
Lemma confidential_not_a_legal_term :
  ¬ ∃ terms,
      @App.extract_legal_entities Examples.insertion_order None Spec.example_text
        !! "LEGAL_TERMS" = Some terms
      ∧ "confidential" ∈ terms.
Proof.
  intros (terms & E & Hin).
  rewrite example_legal_terms in E.
  assert (terms = take 10 (@list_set Examples.insertion_order
    ["contract"; "liability"; "termination"; "jurisdiction"; "governing law"]))
    as -> by congruence.
  apply bucket_elem in Hin. by apply confidential_not_listed in Hin.
Qed.

(** ** Counting and sorting *)

Section CountFacts.
Import PyStr Spec Spacy App.

Lemma count_cons (k w : string) (l : list string) :
  count k (w :: l) = (if decide (w = k) then 1 else 0) + count k l.
Proof.
  unfold count. rewrite filter_cons. by destruct (decide (w = k)).
Qed.

Lemma count_fmap {A} (f : A → string) (k : string) (l : list A) :
  count k (f <$> l) = length (filter (λ x, f x = k) l).
Proof.
  unfold count. induction l as [|x l IH]; [done|].
  rewrite fmap_cons, !filter_cons.
  destruct (decide (f x = k)); cbn [length]; by rewrite IH.
Qed.

Lemma Counter_fold (l : list string) :
  ∀ (m : gmap string nat) (k : string),
    default 0 (foldl (λ m w, <[w := S (default 0 (m !! w))]> m) m l !! k)
    = default 0 (m !! k) + count k l.
Proof.
  induction l as [|w l IH]; intros m k.
  - unfold count. cbn. lia.
  - cbn [foldl]. rewrite IH, count_cons. destruct (decide (w = k)) as [->|Hne].
    + rewrite lookup_insert_eq. cbn. lia.
    + by rewrite lookup_insert_ne.
Qed.

(** [Counter(words)[k]] is the number of occurrences of [k]. *)
Lemma Counter_count (l : list string) (k : string) :
  default 0 (Counter l !! k) = count k l.
Proof. unfold Counter. by rewrite Counter_fold, lookup_empty. Qed.

End CountFacts.

Section SortFacts.
Context {A : Type} (key : A → nat).

Lemma insert_desc_perm (x : A) (l : list A) : App.insert_desc key x l ≡ₚ x :: l.
Proof.
  induction l as [|y l IH]; [done|]. cbn [App.insert_desc].
  destruct (key x <? key y); [|done].
  by rewrite IH, Permutation_swap.
Qed.

Lemma sorted_desc_perm (l : list A) : App.sorted_desc key l ≡ₚ l.
Proof.
  induction l as [|x l IH]; [done|].
  unfold App.sorted_desc in *. cbn [foldr]. by rewrite insert_desc_perm, IH.
Qed.

Lemma insert_desc_sorted (x : A) (l : list A) :
  StronglySorted (λ a b, key b ≤ key a) l →
  StronglySorted (λ a b, key b ≤ key a) (App.insert_desc key x l).
Proof.
  induction 1 as [|y l Hl IH Hy]; cbn [App.insert_desc].
  - by repeat constructor.
  - destruct (key x <? key y) eqn:E.
    + apply Nat.ltb_lt in E. constructor; [done|].
      rewrite insert_desc_perm. constructor; [lia | done].
    + apply Nat.ltb_ge in E. constructor; [by constructor|].
      constructor; [done|]. eapply Forall_impl; [exact Hy|].
      cbn. intros z Hz. lia.
Qed.

Lemma sorted_desc_sorted (l : list A) :
  StronglySorted (λ a b, key b ≤ key a) (App.sorted_desc key l).
Proof.
  induction l as [|x l IH]; [constructor|].
  unfold App.sorted_desc in *. cbn [foldr]. by apply insert_desc_sorted.
Qed.

(** Elements with the same key keep their order. *)
Lemma insert_desc_stable (v : nat) (x : A) (l : list A) :
  filter (λ y, key y = v) (App.insert_desc key x l)
  = filter (λ y, key y = v) (x :: l).
Proof.
  induction l as [|y l IH]; [done|]. cbn [App.insert_desc].
  destruct (key x <? key y) eqn:E; [|done].
  apply Nat.ltb_lt in E.
  rewrite (filter_cons _ y), IH, !(filter_cons _ x), !(filter_cons _ y).
  destruct (decide (key x = v)), (decide (key y = v)); try done. lia.
Qed.

Lemma sorted_desc_stable (v : nat) (l : list A) :
  filter (λ y, key y = v) (App.sorted_desc key l) = filter (λ y, key y = v) l.
Proof.
  induction l as [|x l IH]; [done|].
  unfold App.sorted_desc in *. cbn [foldr].
  by rewrite insert_desc_stable, !(filter_cons _ x), IH.
Qed.

Lemma sorted_desc_ext (key' : A → nat) (l : list A) :
  (∀ x, key x = key' x) → App.sorted_desc key l = App.sorted_desc key' l.
Proof.
  intros Hk. unfold App.sorted_desc.
  induction l as [|x l IH]; [done|]. cbn [foldr]. rewrite IH.
  generalize (foldr (App.insert_desc key') [] l) as k. intros k.
  induction k as [|y k IHk]; [done|]. cbn [App.insert_desc]. by rewrite !Hk, IHk.
Qed.

Lemma sorted_split (R : A → A → Prop) (l1 l2 : list A) :
  StronglySorted R (l1 ++ l2) →
  StronglySorted R l1 ∧ ∀ a b, a ∈ l1 → b ∈ l2 → R a b.
Proof.
  induction l1 as [|x l1 IH]; cbn.
  - intros _. split; [constructor|]. intros a b Ha. by apply elem_of_nil in Ha.
  - intros Hs. apply StronglySorted_inv in Hs as [Hs Hx].
    destruct (IH Hs) as [Hl1 Hcross]. apply Forall_app in Hx as [Hx1 Hx2].
    split; [by constructor|].
    intros a b Ha Hb. apply elem_of_cons in Ha as [->|Ha].
    + by apply (proj1 (Forall_forall _ _) Hx2).
    + by apply Hcross.
Qed.

End SortFacts.

(** ** The summarizer *)

Section Summarizer.
Import PyStr Spec Spacy App.

Lemma word_frequency_weight (doc : Doc) (word : Token) :
  default 0
    (Counter ((λ token, lower (Spacy.text token))
                <$> filter (λ token, is_alpha token = true ∧ is_stop token = false)
                      (tokens doc))
       !! lower (Spacy.text word))
  = token_weight doc word.
Proof.
  rewrite Counter_count, count_fmap, list_filter_filter.
  unfold token_weight. f_equal. apply list_filter_iff. tauto.
Qed.

(** With the pipeline, the summary joins the [num_sentences] sentences of
    the highest score. *)
Lemma summarize_text_pipeline (nlp : Language) (text : string) (num : option Z) :
  summarize_text (Some nlp) text num =
  join " " (span_text
              <$> nlargest (default 5%Z num) (sentence_score (nlp text))
                    (sents (nlp text))).
Proof.
  unfold summarize_text, process_text, nlargest. do 3 f_equal.
  apply sorted_desc_ext. intros sent. unfold sentence_score. f_equal.
  apply list_fmap_ext. intros i word _. apply word_frequency_weight.
Qed.

Lemma nlargest_split {A} (key : A → nat) (n : Z) (l : list A) :
  l ≡ₚ nlargest n key l ++ drop (Z.to_nat n) (sorted_desc key l).
Proof. unfold nlargest. by rewrite take_drop, sorted_desc_perm. Qed.

Lemma nlargest_length {A} (key : A → nat) (n : Z) (l : list A) :
  length (nlargest n key l) = Z.to_nat n `min` length l.
Proof. unfold nlargest. by rewrite length_take, sorted_desc_perm. Qed.

Lemma nlargest_sorted {A} (key : A → nat) (n : Z) (l : list A) :
  StronglySorted (λ a b, key b ≤ key a) (nlargest n key l)
  ∧ ∀ a b, a ∈ nlargest n key l → b ∈ drop (Z.to_nat n) (sorted_desc key l) →
           key b ≤ key a.
Proof.
  apply (sorted_split (λ a b, key b ≤ key a)). unfold nlargest.
  rewrite take_drop. apply sorted_desc_sorted.
Qed.

Lemma nlargest_stable {A} (key : A → nat) (n : Z) (l : list A) (v : nat) :
  filter (λ x, key x = v) (nlargest n key l) `prefix_of` filter (λ x, key x = v) l.
Proof.
  rewrite <- (sorted_desc_stable key v l). unfold nlargest.
  assert (filter (λ x, key x = v) (sorted_desc key l)
          = filter (λ x, key x = v) (take (Z.to_nat n) (sorted_desc key l))
            ++ filter (λ x, key x = v) (drop (Z.to_nat n) (sorted_desc key l)))
    as -> by (by rewrite <- filter_app, take_drop).
  by apply prefix_app_r.
Qed.

End Summarizer.

(** X1: with the pipeline, [summarize_text] joins with one blank the texts
    of the sentences it selects; it selects as many sentences as asked for,
    or all of them when there are fewer; the selected ones are in descending
    order of score; no sentence left out has a higher score than a selected
    one. The score of a sentence is the sum, over its tokens, of the number
    of alphabetic tokens of the document, stop words apart, with the same
    lowercased text. *)
Theorem summarize_text_top_scored (nlp : Spacy.Language) (text : string) (N : Z) :
  let doc := nlp text in
  let score := Spec.sentence_score doc in
  ∃ selected rest,
    App.summarize_text (Some nlp) text (Some N)
      = PyStr.join " " (Spacy.span_text <$> selected)
    ∧ Spacy.sents doc ≡ₚ selected ++ rest
    ∧ length selected = Z.to_nat N `min` length (Spacy.sents doc)
    ∧ StronglySorted (λ a b, score b ≤ score a) selected
    ∧ ∀ a b, a ∈ selected → b ∈ rest → score b ≤ score a.
Proof.
  cbn zeta.
  exists (App.nlargest N (Spec.sentence_score (nlp text)) (Spacy.sents (nlp text))),
    (drop (Z.to_nat N)
       (App.sorted_desc (Spec.sentence_score (nlp text)) (Spacy.sents (nlp text)))).
  split; [apply summarize_text_pipeline|].
  split; [apply nlargest_split|]. split; [apply nlargest_length|].
  apply nlargest_sorted.
Qed.

(** X2: with the pipeline, ties are decided by document order: among the
    sentences of one score, the selected ones are the first ones of the
    document, in the order of the document. *)
Theorem summarize_text_ties (nlp : Spacy.Language) (text : string) (N : Z) :
  let doc := nlp text in
  let score := Spec.sentence_score doc in
  ∃ selected,
    App.summarize_text (Some nlp) text (Some N)
      = PyStr.join " " (Spacy.span_text <$> selected)
    ∧ ∀ v, filter (λ s, score s = v) selected
             `prefix_of` filter (λ s, score s = v) (Spacy.sents doc).
Proof.
  cbn zeta.
  exists (App.nlargest N (Spec.sentence_score (nlp text)) (Spacy.sents (nlp text))).
  split; [apply summarize_text_pipeline|]. intros v. apply nlargest_stable.
Qed.

(** X3: a count that is not positive gives the empty summary with the
    pipeline; in fallback mode the count 0 gives the empty summary, but a
    negative count [N] gives all the qualifying sentences except the last
    [-N]. *)
Theorem summarize_text_nonpositive (nlp : Spacy.Language) (text : string) (N : Z) :
  (N ≤ 0)%Z →
  App.summarize_text (Some nlp) text (Some N) = ""
  ∧ (N = 0%Z → App.summarize_text None text (Some N) = "")
  ∧ ((N < 0)%Z →
     App.summarize_text None text (Some N) =
       PyStr.join ". "
         (take (length (Spec.qualifying_sentences text) - Z.to_nat (- N))
            (Spec.qualifying_sentences text))).
Proof.
  intros HN. split; [|split].
  - rewrite summarize_text_pipeline. unfold App.nlargest.
    change (default 5%Z (Some N)) with N.
    replace (Z.to_nat N) with 0 by lia. reflexivity.
  - intros ->. unfold App.summarize_text. reflexivity.
  - intros Hneg. unfold App.summarize_text. change (default 5%Z (Some N)) with N.
    rewrite fallback_sentences_qualifying. unfold PyStr.slice_to.
    destruct (0 <=? N)%Z eqn:E; [|done]. apply Z.leb_le in E. lia.
Qed.

Lemma summarize_text_nonpositive_witness :
  (-1 ≤ 0)%Z
  ∧ App.summarize_text (Some Examples.bracket_nlp) Spec.example_text (Some (-1)%Z) = ""
  ∧ App.summarize_text None Spec.example_text (Some (-1)%Z) =
      "This is a test contract. It was signed on 01/02/2020 for $500. Governing law is California. Termination occurs in jurisdiction X. Liability is limited".
Proof.
  split; [lia|].
  destruct (summarize_text_nonpositive Examples.bracket_nlp Spec.example_text (-1)
              ltac:(lia)) as (E1 & _ & E2).
  split; [exact E1|]. rewrite E2 by lia. vm_compute. reflexivity.
Defined.

(** X4: in fallback mode, for a count from 0 to 10, the summary is the join
    of the first [N] key clauses: the summary and the key clauses are the
    same sentences. *)
Theorem summarize_text_joins_clauses (text : string) (N : Z) :
  (0 ≤ N ≤ 10)%Z →
  App.summarize_text None text (Some N) =
    PyStr.join ". " (take (Z.to_nat N) (App.extract_key_clauses None text)).
Proof.
  intros HN. unfold App.summarize_text, App.extract_key_clauses.
  change (default 5%Z (Some N)) with N.
  rewrite slice_to_nonneg by lia. rewrite take_take.
  replace (Z.to_nat N `min` 10) with (Z.to_nat N) by lia. reflexivity.
Qed.

Lemma summarize_text_joins_clauses_witness :
  (0 ≤ 5 ≤ 10)%Z
  ∧ App.summarize_text None Spec.example_text (Some 5%Z) =
      PyStr.join ". "
        (take (Z.to_nat 5) (App.extract_key_clauses None Spec.example_text)).
Proof.
  split; [lia|]. apply summarize_text_joins_clauses. lia.
Defined.

(** ** Where the clauses come from *)

Section Occurs.
Import PyStr Spec Spacy App.

Lemma occurs_str_in (x s : string) : occurs x s ↔ str_in x s = true.
Proof. symmetry. apply str_in_spec. Qed.

Lemma occurs_refl (s : string) : occurs s s.
Proof. exists "", "". by rewrite app_empty_r. Qed.

Lemma occurs_trans (x y z : string) : occurs x y → occurs y z → occurs x z.
Proof.
  intros (a & b & ->) (c & d & ->).
  exists (c +:+ a), (b +:+ d). by rewrite !app_assoc.
Qed.

Lemma occurs_app_l (x a b : string) : occurs x a → occurs x (a +:+ b).
Proof.
  intros (pre & post & ->). exists pre, (post +:+ b). by rewrite !app_assoc.
Qed.

Lemma occurs_app_r (x a b : string) : occurs x b → occurs x (a +:+ b).
Proof.
  intros (pre & post & ->). exists (a +:+ pre), post. by rewrite !app_assoc.
Qed.

Lemma lstrip_occurs (s : string) : occurs (lstrip s) s.
Proof.
  induction s as [|c s IH]; [apply occurs_refl|]. cbn [lstrip].
  destruct (isspace c); [|apply occurs_refl].
  apply (occurs_app_r _ (String c "") s), IH.
Qed.

Lemma rstrip_prefix (s : string) : ∃ post, s = rstrip s +:+ post.
Proof.
  induction s as [|c s [post E]]; [by exists ""|]. rewrite rstrip_cons.
  destruct (rstrip s) as [|d r].
  - destruct (isspace c); [by exists (String c s) | by exists s].
  - exists post. by rewrite app_cons, <- E.
Qed.

Lemma rstrip_occurs (s : string) : occurs (rstrip s) s.
Proof. destruct (rstrip_prefix s) as [post E]. by exists "", post. Qed.

Lemma strip_occurs (s : string) : occurs (strip s) s.
Proof.
  eapply occurs_trans; [apply rstrip_occurs | apply lstrip_occurs].
Qed.

Lemma all_chars_app (ok : ascii → bool) (a b : string) :
  all_chars ok (a +:+ b) = all_chars ok a && all_chars ok b.
Proof.
  induction a as [|c a IH]; [done|]. rewrite app_cons. cbn [all_chars].
  by rewrite IH, andb_assoc.
Qed.

Lemma all_chars_occurs (ok : ascii → bool) (x s : string) :
  occurs x s → all_chars ok s = true → all_chars ok x = true.
Proof.
  intros (pre & post & ->). rewrite !all_chars_app, !andb_true_iff. tauto.
Qed.

Lemma interleave_occurs (rest : list (string * string)) :
  ∀ p0 p, p ∈ p0 :: rest.*2 → occurs p (interleave p0 rest).
Proof.
  induction rest as [|[sep q] rest IH]; intros p0 p Hp.
  - apply elem_of_cons in Hp as [->|Hp]; [apply occurs_refl|].
    by apply elem_of_nil in Hp.
  - cbn [interleave]. apply elem_of_cons in Hp as [->|Hp].
    + apply occurs_app_l, occurs_refl.
    + do 2 apply occurs_app_r. by apply IH.
Qed.

Lemma well_cut_pieces (rest : list (string * string)) :
  well_cut rest →
  Forall (λ p, all_chars (λ c, negb (is_end c)) p = true) rest.*2.
Proof.
  induction rest as [|[sep q] rest IH]; [constructor|].
  intros (_ & _ & Hq & _ & Hrest). constructor; [exact Hq | by apply IH].
Qed.

(** A piece of the text occurs in it and holds no terminator. *)
Lemma pieces_occur (text p : string) :
  p ∈ pieces false text →
  occurs p text ∧ all_chars (λ c, negb (is_end c)) p = true.
Proof.
  destruct (pieces_shape text) as [(p0 & rest & -> & Ht & Hp0 & Hrest) _].
  intros Hp. split.
  - rewrite Ht. by apply interleave_occurs.
  - apply elem_of_cons in Hp as [->|Hp]; [done|].
    by apply (proj1 (Forall_forall _ _) (well_cut_pieces _ Hrest)).
Qed.

Lemma fallback_sentences_occur (text s : string) :
  s ∈ fallback_sentences text →
  occurs s text ∧ all_chars (λ c, negb (is_end c)) s = true.
Proof.
  intros Hs. apply fallback_sentences_elem in Hs as (p & Hp & -> & _).
  rewrite split_sentence_end in Hp. apply pieces_occur in Hp as [Hocc Hend].
  split.
  - eapply occurs_trans; [apply strip_occurs | exact Hocc].
  - eapply all_chars_occurs; [apply strip_occurs | exact Hend].
Qed.

End Occurs.

(** X5: in fallback mode every key clause occurs in the text as it stands,
    and holds none of the characters '.', '!' and '?': a clause never spans
    a terminator, so a decimal point ends a clause. *)
Theorem key_clauses_occur_in_text (text : string) :
  Forall (λ c, PyStr.str_in c text = true
               ∧ Spec.all_chars (λ ch, negb (Spec.is_end ch)) c = true)
    (App.extract_key_clauses None text).
Proof.
  apply Forall_forall. intros c Hc. cbn [App.extract_key_clauses] in Hc.
  assert (c ∈ App.fallback_sentences text) as Hin.
  { eapply elem_of_sublist; [exact Hc | apply sublist_take]. }
  apply fallback_sentences_occur in Hin as [Hocc Hend].
  split; [by apply occurs_str_in | done].
Qed.

(** ** More on risks and compliance *)

(** Closed decidable goals are settled by evaluation. *)
Ltac decide_closed := apply (bool_decide_unpack _); vm_compute; exact I.

Section Monotone.
Import PyStr Spec Spacy App.

Lemma str_in_app_l (w a b : string) :
  str_in w (lower a) = true → str_in w (lower (a +:+ b)) = true.
Proof.
  rewrite <- !occurs_str_in, lower_app. apply occurs_app_l.
Qed.

Lemma str_in_app_r (w a b : string) :
  str_in w (lower b) = true → str_in w (lower (a +:+ b)) = true.
Proof.
  rewrite <- !occurs_str_in, lower_app. apply occurs_app_r.
Qed.

Lemma filter_sublist_impl {A} (P Q : A → Prop) `{∀ x, Decision (P x)}
    `{∀ x, Decision (Q x)} (l : list A) :
  (∀ x, P x → Q x) → filter P l `sublist_of` filter Q l.
Proof.
  intros HPQ. induction l as [|x l IH]; [done|]. rewrite !filter_cons.
  destruct (decide (P x)) as [HP|HP], (decide (Q x)) as [HQ|HQ].
  - by apply sublist_skip.
  - by destruct HQ; apply HPQ.
  - by apply sublist_cons.
  - done.
Qed.

(** The issues of a text, by the rules that hold of its lowercasing. *)
Lemma check_compliance_sublist (a b : string) :
  (∀ rule, rule ∈ compliance_rules →
           rule.1 (lower a) = true → rule.1 (lower b) = true) →
  check_compliance a `sublist_of` check_compliance b.
Proof.
  intros Himp. rewrite !check_compliance_lower.
  apply fmap_sublist.
  generalize Himp. generalize compliance_rules as rules. clear Himp.
  induction rules as [|rule rules IH]; intros Himp; [done|].
  rewrite !filter_cons.
  assert (∀ r, r ∈ rules → r.1 (lower a) = true → r.1 (lower b) = true) as Hrest.
  { intros r Hr. apply Himp. by apply list_elem_of_further. }
  destruct (decide (rule.1 (lower a) = true)) as [Ha|Ha],
    (decide (rule.1 (lower b) = true)) as [Hb|Hb].
  - apply sublist_skip, IH, Hrest.
  - destruct Hb. apply Himp; [apply list_elem_of_here | done].
  - apply sublist_cons, IH, Hrest.
  - apply IH, Hrest.
Qed.

Lemma negb_str_in_mono (w s s' : string) :
  (str_in w s' = true → str_in w s = true) →
  negb (str_in w s) = true → negb (str_in w s') = true.
Proof. destruct (str_in w s), (str_in w s'); naive_solver. Qed.

Lemma rules_antitone (s s' : string) :
  (∀ w, str_in w s' = true → str_in w s = true) →
  ∀ rule, rule ∈ compliance_rules → rule.1 s = true → rule.1 s' = true.
Proof.
  intros Hmono rule Hrule. unfold compliance_rules in Hrule.
  repeat (apply elem_of_cons in Hrule as [->|Hrule];
          [cbn [fst]; rewrite ?andb_true_iff;
           intuition eauto using negb_str_in_mono|]).
  by apply elem_of_nil in Hrule.
Qed.

End Monotone.

(** X6: with the pipeline, a term is reported exactly when it is a term of
    the risk vocabulary and the text of some token of the lowercased text is
    that term; no term is reported twice. *)
Theorem detect_risks_pipeline (S : PySet) (nlp : Spacy.Language) (text : string) :
  (∀ w, w ∈ App.detect_risks (Some nlp) text ↔
        w ∈ App.RISK_WORDS
        ∧ ∃ token, token ∈ Spacy.tokens (nlp (PyStr.lower text))
                   ∧ Spacy.text token = w)
  ∧ NoDup (App.detect_risks (Some nlp) text).
Proof.
  split.
  - intros w. apply (detect_risks_elem (Some nlp)).
  - apply list_set_NoDup.
Qed.

(** X7: in both modes [detect_risks] reports at most ten terms. *)
Theorem detect_risks_at_most_ten (S : PySet) (nlp : option Spacy.Language)
    (text : string) :
  length (App.detect_risks nlp text) ≤ 10.
Proof.
  change 10 with (length App.RISK_WORDS).
  apply submseteq_length, NoDup_submseteq.
  - destruct nlp; apply list_set_NoDup.
  - intros w Hw. apply detect_risks_elem in Hw. destruct nlp; tauto.
Qed.

(** X8: in fallback mode, adding text before or after a text never removes
    a risk: the risks of a part are among the risks of the whole. *)
Theorem detect_risks_monotone (S : PySet) (a b : string) :
  App.detect_risks None a ⊆ App.detect_risks None (a +:+ b)
  ∧ App.detect_risks None b ⊆ App.detect_risks None (a +:+ b).
Proof.
  split; intros w Hw; apply (detect_risks_elem None) in Hw as [Hin Hw];
    apply (detect_risks_elem None); (split; [|done]).
  - by apply str_in_app_l.
  - by apply str_in_app_r.
Qed.

(** X9: the issues returned by [check_compliance] are some of the five
    messages, in the order of the rules, each at most once; there are thus
    never more than five. *)
Theorem check_compliance_among_messages (text : string) :
  App.check_compliance text `sublist_of`
    ["Missing governing law or jurisdiction clause";
     "No termination clause found";
     "No confidentiality or proprietary information clause";
     "Liability terms not clearly defined";
     "Document may lack proper signature requirements"]
  ∧ NoDup (App.check_compliance text)
  ∧ length (App.check_compliance text) ≤ 5.
Proof.
  assert (App.check_compliance text `sublist_of` Spec.compliance_messages) as Hsub.
  { rewrite check_compliance_lower. apply fmap_sublist, sublist_filter. }
  split; [exact Hsub|]. split.
  - eapply sublist_NoDup; [|exact Hsub].
    decide_closed.
  - by apply sublist_length in Hsub.
Qed.

(** An issue is in a list of messages exactly when its condition, a closed
    one, holds. *)
Ltac issue_case :=
  split;
  [ intros Hin;
    first [ by repeat split
          | exfalso; revert Hin; apply (bool_decide_unpack (_ ∉ _));
            vm_compute; exact I ]
  | intros Hc; first [ decide_closed | done | by destruct Hc ] ].

(** Each issue and its condition. *)
Lemma issue_conditions (text : string) :
  let t := PyStr.lower text in
  ("Missing governing law or jurisdiction clause" ∈ App.check_compliance text ↔
     PyStr.str_in "governing law" t = false ∧ PyStr.str_in "jurisdiction" t = false)
  ∧ ("No termination clause found" ∈ App.check_compliance text ↔
     PyStr.str_in "termination" t = false)
  ∧ ("No confidentiality or proprietary information clause" ∈ App.check_compliance text ↔
     PyStr.str_in "confidential" t = false ∧ PyStr.str_in "proprietary" t = false)
  ∧ ("Liability terms not clearly defined" ∈ App.check_compliance text ↔
     PyStr.str_in "liability" t = false)
  ∧ ("Document may lack proper signature requirements" ∈ App.check_compliance text ↔
     PyStr.str_in "signature" t = false ∧ PyStr.str_in "signed" t = false).
Proof.
  cbn zeta. unfold App.check_compliance.
  destruct (PyStr.str_in "governing law" (PyStr.lower text)),
    (PyStr.str_in "jurisdiction" (PyStr.lower text)),
    (PyStr.str_in "termination" (PyStr.lower text)),
    (PyStr.str_in "confidential" (PyStr.lower text)),
    (PyStr.str_in "proprietary" (PyStr.lower text)),
    (PyStr.str_in "liability" (PyStr.lower text)),
    (PyStr.str_in "signature" (PyStr.lower text)),
    (PyStr.str_in "signed" (PyStr.lower text));
    cbn [App.append_if negb andb app];
    (split; [issue_case|]); (split; [issue_case|]); (split; [issue_case|]);
    (split; [issue_case|]); issue_case.
Qed.

(** X10: each issue is reported exactly when its condition holds of the
    lowercased text: the first when neither "governing law" nor
    "jurisdiction" occurs, the second when "termination" does not occur, the
    third when neither "confidential" nor "proprietary" occurs, the fourth
    when "liability" does not occur, the fifth when neither "signature" nor
    "signed" occurs. *)
Theorem check_compliance_issue_iff (text : string) :
  let t := PyStr.lower text in
  ("Missing governing law or jurisdiction clause" ∈ App.check_compliance text ↔
     PyStr.str_in "governing law" t = false ∧ PyStr.str_in "jurisdiction" t = false)
  ∧ ("No termination clause found" ∈ App.check_compliance text ↔
     PyStr.str_in "termination" t = false)
  ∧ ("No confidentiality or proprietary information clause" ∈ App.check_compliance text ↔
     PyStr.str_in "confidential" t = false ∧ PyStr.str_in "proprietary" t = false)
  ∧ ("Liability terms not clearly defined" ∈ App.check_compliance text ↔
     PyStr.str_in "liability" t = false)
  ∧ ("Document may lack proper signature requirements" ∈ App.check_compliance text ↔
     PyStr.str_in "signature" t = false ∧ PyStr.str_in "signed" t = false).
Proof. exact (issue_conditions text). Qed.

(** X11: adding text before or after a text never adds an issue: the issues
    of the whole are among the issues of each part, in the same order. *)
Theorem check_compliance_antitone (a b : string) :
  App.check_compliance (a +:+ b) `sublist_of` App.check_compliance a
  ∧ App.check_compliance (a +:+ b) `sublist_of` App.check_compliance b.
Proof.
  split; apply check_compliance_sublist, rules_antitone; intros w.
  - apply str_in_app_l.
  - apply str_in_app_r.
Qed.

(** ** More on the entity buckets *)

Section EntitiesMore.
Import PyStr Spec Spacy App.
Context `{PySet}.

Lemma empty_entities_lookup (key : string) :
  key ∈ bucket_names → empty_entities !! key = Some [].
Proof.
  unfold bucket_names. rewrite elem_of_list_to_set. intros Hkey.
  repeat (apply elem_of_cons in Hkey as [->|Hkey]; [reflexivity|]).
  by apply elem_of_nil in Hkey.
Qed.

Lemma routes_bucket_names (key lab : string) :
  (key, lab) ∈ routes → key ∈ bucket_names.
Proof.
  unfold routes, bucket_names. rewrite elem_of_list_to_set. intros Hkey.
  repeat (apply elem_of_cons in Hkey as [[= -> ->]|Hkey];
          [decide_closed|]).
  by apply elem_of_nil in Hkey.
Qed.

(** One round of the loop adds the text of an entity to the bucket of its
    label, and to no other bucket. *)
Lemma route_lookup (key lab : string) (entities : gmap string (list string))
    (ent : Ent) :
  (key, lab) ∈ routes →
  route entities ent !! key =
  if decide (label_ ent = lab)
  then (λ l, l ++ [ent_text ent]) <$> entities !! key
  else entities !! key.
Proof.
  unfold routes. intros Hkey.
  repeat (apply elem_of_cons in Hkey as [[= -> ->]|Hkey];
    [unfold route, append_to;
     repeat case_bool_decide; repeat case_decide; try congruence;
     by rewrite ?lookup_alter_eq, ?lookup_alter_ne by done|]).
  by apply elem_of_nil in Hkey.
Qed.

Lemma route_legal_terms (entities : gmap string (list string)) (ent : Ent) :
  route entities ent !! "LEGAL_TERMS" = entities !! "LEGAL_TERMS".
Proof.
  unfold route, append_to.
  repeat (case_bool_decide; [by rewrite lookup_alter_ne by done|]). done.
Qed.

Lemma foldl_route_lookup (key lab : string) (l : list Ent) :
  (key, lab) ∈ routes →
  ∀ (entities : gmap string (list string)) (bucket : list string),
    entities !! key = Some bucket →
    foldl route entities l !! key =
    Some (bucket ++ (ent_text <$> filter (λ ent, label_ ent = lab) l)).
Proof.
  intros Hkey. induction l as [|ent l IH]; intros entities bucket Hb.
  - by rewrite filter_nil, app_nil_r.
  - cbn [foldl]. rewrite filter_cons.
    pose proof (route_lookup key lab entities ent Hkey) as Hr.
    destruct (decide (label_ ent = lab)).
    + rewrite Hb in Hr. rewrite (IH _ _ Hr), fmap_cons.
      by rewrite <- (assoc_L (++)).
    + rewrite Hb in Hr. by rewrite (IH _ _ Hr).
Qed.

Lemma foldl_route_legal_terms (l : list Ent) :
  ∀ entities : gmap string (list string),
    foldl route entities l !! "LEGAL_TERMS" = entities !! "LEGAL_TERMS".
Proof.
  induction l as [|ent l IH]; intros entities; [done|].
  cbn [foldl]. by rewrite IH, route_legal_terms.
Qed.

(** With the pipeline, a bucket holds the texts of the entities of its
    label, in the order of the document, before duplicates are removed. *)
Lemma raw_pipeline (nlp : Language) (text key lab : string) :
  (key, lab) ∈ routes →
  raw_entities (Some nlp) text !! key =
  Some (ent_text <$> filter (λ ent, label_ ent = lab) (ents (nlp text))).
Proof.
  intros Hkey. cbn [raw_entities]. unfold process_text.
  rewrite (foldl_route_lookup key lab _ Hkey empty_entities []); [done|].
  by eapply empty_entities_lookup, routes_bucket_names.
Qed.

Lemma raw_pipeline_legal_terms (nlp : Language) (text : string) :
  raw_entities (Some nlp) text !! "LEGAL_TERMS" = Some [].
Proof. cbn [raw_entities]. by rewrite foldl_route_legal_terms. Qed.

Lemma raw_persons (text : string) : raw_entities None text !! "PERSONS" = Some [].
Proof. cbn [raw_entities]. by rewrite !lookup_insert_ne by done. Qed.

Lemma raw_organizations (text : string) :
  raw_entities None text !! "ORGANIZATIONS" = Some [].
Proof. cbn [raw_entities]. by rewrite !lookup_insert_ne by done. Qed.

Lemma legal_terms_bucket (text : string) :
  ∃ terms,
    extract_legal_entities None text !! "LEGAL_TERMS" = Some terms
    ∧ ∀ t, t ∈ terms ↔ t ∈ legal_terms ∧ str_in t (lower text) = true.
Proof.
  eexists. split.
  - by rewrite extract_legal_entities_lookup, raw_legal_terms.
  - intros t. rewrite bucket_small, list_elem_of_filter; [tauto|].
    etrans; [apply length_filter | cbn; lia].
Qed.

(** A bucket that is empty before the clean-up loop is empty after it. *)
Lemma empty_bucket (nlp : option Language) (text key : string) :
  raw_entities nlp text !! key = Some [] →
  extract_legal_entities nlp text !! key = Some [].
Proof.
  intros Hraw. rewrite extract_legal_entities_lookup, Hraw.
  cbn [fmap option_fmap option_map]. by rewrite list_set_nil.
Qed.

Lemma list_set_size (l : list string) :
  length (list_set l) = size (list_to_set l : gset string).
Proof.
  rewrite <- (size_list_to_set (C := gset string) (list_set l))
    by apply list_set_NoDup.
  f_equal. apply set_eq. intros x. by rewrite !elem_of_list_to_set, list_set_elem.
Qed.

End EntitiesMore.

(** X12: in fallback mode the PERSONS and ORGANIZATIONS buckets are empty,
    and the LEGAL_TERMS bucket holds exactly the terms of the legal
    vocabulary that occur in the lowercased text: the vocabulary has eight
    terms, so the limit of ten never drops one. *)
Theorem fallback_buckets (S : PySet) (text : string) :
  App.extract_legal_entities None text !! "PERSONS" = Some []
  ∧ App.extract_legal_entities None text !! "ORGANIZATIONS" = Some []
  ∧ ∃ terms,
      App.extract_legal_entities None text !! "LEGAL_TERMS" = Some terms
      ∧ ∀ t, t ∈ terms ↔
             t ∈ ["contract"; "agreement"; "liability"; "indemnity"; "warranty";
                  "termination"; "jurisdiction"; "governing law"]
             ∧ PyStr.str_in t (PyStr.lower text) = true.
Proof.
  split; [|split].
  - apply empty_bucket, raw_persons.
  - apply empty_bucket, raw_organizations.
  - apply legal_terms_bucket.
Qed.

(** X13: with the pipeline the LEGAL_TERMS bucket is empty, and each of the
    buckets PERSONS, ORGANIZATIONS, DATES and MONETARY holds only texts of
    entities with the label PERSON, ORG, DATE and MONEY respectively; when
    the document has at most ten entities of the label, the bucket holds the
    text of each of them. *)
Theorem pipeline_buckets (S : PySet) (nlp : Spacy.Language) (text : string) :
  App.extract_legal_entities (Some nlp) text !! "LEGAL_TERMS" = Some []
  ∧ Forall (λ route,
      ∃ bucket,
        App.extract_legal_entities (Some nlp) text !! route.1 = Some bucket
        ∧ (∀ x, x ∈ bucket →
                ∃ ent, ent ∈ Spacy.ents (nlp text)
                       ∧ Spacy.label_ ent = route.2 ∧ Spacy.ent_text ent = x)
        ∧ (length (filter (λ ent, Spacy.label_ ent = route.2) (Spacy.ents (nlp text))) ≤ 10 →
           ∀ ent, ent ∈ Spacy.ents (nlp text) → Spacy.label_ ent = route.2 →
                  Spacy.ent_text ent ∈ bucket))
      [("PERSONS", "PERSON"); ("ORGANIZATIONS", "ORG"); ("DATES", "DATE");
       ("MONETARY", "MONEY")].
Proof.
  split.
  - apply empty_bucket, raw_pipeline_legal_terms.
  - apply Forall_forall. intros [key lab] Hroute. cbn [fst snd].
    eexists. split; [|split].
    + by rewrite extract_legal_entities_lookup, (raw_pipeline nlp text key lab Hroute).
    + intros x Hx. apply bucket_elem, list_elem_of_fmap in Hx as (ent & -> & Hent).
      apply list_elem_of_filter in Hent as [Hlab Hent]. by exists ent.
    + intros Hfew ent Hent Hlab. apply bucket_small.
      * by rewrite length_fmap.
      * apply list_elem_of_fmap_2. by apply list_elem_of_filter.
Qed.

(** X14: the clean-up loop keeps only entries of the bucket it cleans;
    the cleaned bucket has as many entries as the bucket had distinct ones,
    up to ten; and when the bucket had at most ten distinct entries, none is
    dropped. *)
Theorem bucket_truncation (S : PySet) (nlp : option Spacy.Language)
    (text key : string) (raw : list string) :
  App.raw_entities nlp text !! key = Some raw →
  ∃ bucket,
    App.extract_legal_entities nlp text !! key = Some bucket
    ∧ bucket ⊆ raw
    ∧ length bucket = 10 `min` size (list_to_set raw : gset string)
    ∧ (size (list_to_set raw : gset string) ≤ 10 → raw ⊆ bucket).
Proof.
  intros Hraw. exists (take 10 (list_set raw)).
  split; [by rewrite extract_legal_entities_lookup, Hraw|].
  split; [intros x; apply bucket_elem|].
  split; [by rewrite length_take, list_set_size|].
  intros Hfew x Hx. rewrite take_ge by (by rewrite list_set_size).
  by apply list_set_elem.
Qed.

Lemma bucket_truncation_witness :
  @App.raw_entities Examples.insertion_order None Spec.example_text !! "MONETARY"
    = Some ["$500.00"]
  ∧ ∃ bucket,
      @App.extract_legal_entities Examples.insertion_order None Spec.example_text
        !! "MONETARY" = Some bucket
      ∧ bucket ⊆ ["$500.00"]
      ∧ length bucket = 10 `min` size (list_to_set ["$500.00"] : gset string)
      ∧ (size (list_to_set ["$500.00"] : gset string) ≤ 10 → ["$500.00"] ⊆ bucket).
Proof.
  assert (@App.raw_entities Examples.insertion_order None Spec.example_text
            !! "MONETARY" = Some ["$500.00"]) as Hraw.
  { rewrite raw_monetary.
    by replace (Re.findall true App.money_pattern Spec.example_text)
      with ["$500.00"] by (vm_compute; reflexivity). }
  split; [exact Hraw|].
  exact (bucket_truncation Examples.insertion_order None Spec.example_text
           "MONETARY" ["$500.00"] Hraw).
Defined.

(** X15: in fallback mode the entity recognizer and the compliance checker
    agree: "termination" is in the LEGAL_TERMS bucket exactly when no
    termination issue is reported, "liability" exactly when no liability
    issue is reported, and no governing-law issue is reported exactly when
    "governing law" or "jurisdiction" is in the bucket. *)
Theorem legal_terms_agree_with_compliance (S : PySet) (text : string) :
  ∃ terms,
    App.extract_legal_entities None text !! "LEGAL_TERMS" = Some terms
    ∧ ("termination" ∈ terms ↔
       "No termination clause found" ∉ App.check_compliance text)
    ∧ ("liability" ∈ terms ↔
       "Liability terms not clearly defined" ∉ App.check_compliance text)
    ∧ ("governing law" ∈ terms ∨ "jurisdiction" ∈ terms ↔
       "Missing governing law or jurisdiction clause" ∉ App.check_compliance text).
Proof.
  destruct (legal_terms_bucket text) as (terms & Hterms & Helem).
  exists terms. split; [exact Hterms|].
  destruct (issue_conditions text) as (Hg & Ht & _ & Hl & _).
  cbn zeta in *. unfold not. rewrite Hg, Ht, Hl, !Helem.
  assert ("termination" ∈ App.legal_terms) by decide_closed.
  assert ("liability" ∈ App.legal_terms) by decide_closed.
  assert ("governing law" ∈ App.legal_terms) by decide_closed.
  assert ("jurisdiction" ∈ App.legal_terms) by decide_closed.
  destruct (PyStr.str_in "termination" (PyStr.lower text)),
    (PyStr.str_in "liability" (PyStr.lower text)),
    (PyStr.str_in "governing law" (PyStr.lower text)),
    (PyStr.str_in "jurisdiction" (PyStr.lower text));
    intuition congruence.
Qed.

(** ** What a match takes from the subject *)

Section ReFacts.
Import PyStr Spec Spacy App.

Lemma takes_refl (p : Re.pos) (hi : option nat) : takes 0 hi p p.
Proof. exists "". repeat split; [cbn; lia | intros M _; cbn; lia]. Qed.

Lemma takes_trans (lo1 lo2 : nat) (hi1 hi2 hi : option nat) (lo : nat)
    (p q r : Re.pos) :
  takes lo1 hi1 p q → takes lo2 hi2 q r →
  lo ≤ lo1 + lo2 →
  (∀ M, hi = Some M → ∃ M1 M2, hi1 = Some M1 ∧ hi2 = Some M2 ∧ M1 + M2 ≤ M) →
  takes lo hi p r.
Proof.
  intros (pre1 & E1 & Hlo1 & Hhi1) (pre2 & E2 & Hlo2 & Hhi2) Hlo Hhi.
  exists (pre1 +:+ pre2). rewrite app_assoc, <- E2, <- E1, length_app.
  split; [done|]. split; [lia|].
  intros M HM. destruct (Hhi M HM) as (M1 & M2 & H1 & H2 & HM12).
  specialize (Hhi1 M1 H1). specialize (Hhi2 M2 H2). lia.
Qed.

Lemma takes_weaken (lo lo' : nat) (hi hi' : option nat) (p q : Re.pos) :
  takes lo hi p q → lo' ≤ lo →
  (∀ M', hi' = Some M' → ∃ M, hi = Some M ∧ M ≤ M') →
  takes lo' hi' p q.
Proof.
  intros (pre & E & Hlo & Hhi) Hlo' Hhi'. exists pre.
  split; [done|]. split; [lia|].
  intros M' HM'. destruct (Hhi' M' HM') as (M & HM & Hle).
  specialize (Hhi M HM). lia.
Qed.

Lemma one_takes (ok : ascii → bool) (p q : Re.pos) :
  q ∈ Re.one ok p → takes 1 (Some 1) p q.
Proof.
  unfold Re.one. destruct p as [b [|c r]]; cbn [snd].
  - intros Hq. by apply elem_of_nil in Hq.
  - destruct (ok c); intros Hq; [|by apply elem_of_nil in Hq].
    apply list_elem_of_singleton in Hq as ->.
    exists (String c ""). repeat split; [cbn; lia|].
    intros M [= <-]. cbn. lia.
Qed.

Lemma rep_takes (step : Re.pos → list Re.pos) (m : nat) (mx : option nat) :
  (∀ p q, q ∈ step p → takes m mx p q) →
  ∀ (fuel lo : nat) (p q : Re.pos),
    q ∈ Re.rep step lo fuel p →
    takes (lo * m) (M ← mx; Some (fuel * M)) p q.
Proof.
  intros Hstep. induction fuel as [|fuel IH]; intros lo p q Hq.
  - cbn [Re.rep] in Hq. destruct lo; [|by apply elem_of_nil in Hq].
    apply list_elem_of_singleton in Hq as ->. apply takes_refl.
  - rewrite rep_succ in Hq. apply elem_of_app in Hq as [Hq|Hq].
    + apply list_elem_of_bind in Hq as (p' & Hq & Hp').
      apply Hstep in Hp'. apply IH in Hq.
      eapply takes_trans; [exact Hp' | exact Hq | destruct lo; cbn; lia |].
      intros M HM. destruct mx as [M0|]; [|done]. cbn in HM.
      injection HM as <-. exists M0, (fuel * M0). cbn. repeat split. lia.
    + destruct lo; [|by apply elem_of_nil in Hq].
      apply list_elem_of_singleton in Hq as ->. apply takes_refl.
Qed.

(** A match of [a] takes at least [min_len a] and at most [max_len a]
    characters, and leaves the rest of the subject as it is. *)
Lemma run_takes (ic : bool) (a : Re.re) :
  ∀ p q, q ∈ Re.run ic a p → takes (min_len a) (max_len a) p q.
Proof.
  induction a as [|c|cs| | | |a IHa b IHb|a IHa b IHb|a IHa lo hi];
    intros p q Hq; cbn [Re.run min_len max_len] in *.
  - apply list_elem_of_singleton in Hq as ->. apply takes_refl.
  - by eapply one_takes.
  - by eapply one_takes.
  - by eapply one_takes.
  - by eapply one_takes.
  - destruct (Re.at_boundary p); [|by apply elem_of_nil in Hq].
    apply list_elem_of_singleton in Hq as ->. apply takes_refl.
  - apply list_elem_of_bind in Hq as (p' & Hq & Hp').
    eapply takes_trans; [by apply IHa | by apply IHb | done |].
    intros M HM. destruct (max_len a) as [M1|]; [|done].
    destruct (max_len b) as [M2|]; [|done]. cbn in HM. injection HM as <-.
    by exists M1, M2.
  - apply elem_of_app in Hq as [Hq|Hq].
    + eapply takes_weaken; [by apply IHa | lia |].
      intros M HM. destruct (max_len a) as [M1|]; [|done].
      destruct (max_len b) as [M2|]; [|done]. cbn in HM. injection HM as <-.
      exists M1. split; [done | lia].
    + eapply takes_weaken; [by apply IHb | lia |].
      intros M HM. destruct (max_len a) as [M1|]; [|done].
      destruct (max_len b) as [M2|]; [|done]. cbn in HM. injection HM as <-.
      exists M2. split; [done | lia].
  - apply (rep_takes _ (min_len a) (max_len a) IHa) in Hq.
    eapply takes_weaken; [exact Hq | done |].
    intros M HM. destruct hi as [h|]; [|done].
    destruct (max_len a) as [M1|]; [|done]. cbn in HM. injection HM as <-.
    exists (h * M1). by split.
Qed.

Lemma substring_prefix (pre rest : string) :
  substring 0 (String.length pre) (pre +:+ rest) = pre.
Proof.
  induction pre as [|c pre IH]; [by destruct rest|].
  rewrite app_cons. cbn. by rewrite IH.
Qed.

(** What the scan reports for a match that ends at [q]. *)
Lemma reported_takes (lo : nat) (hi : option nat) (b : option ascii)
    (s : string) (q : Re.pos) :
  takes lo hi (b, s) q →
  let x := substring 0 (Re.consumed s q) s in
  occurs x s ∧ lo ≤ String.length x ∧ ∀ M, hi = Some M → String.length x ≤ M.
Proof.
  intros (pre & E & Hlo & Hhi). destruct q as [b' r]. cbn [snd] in E.
  subst s. cbn zeta. unfold Re.consumed. cbn [snd].
  rewrite length_app, Nat.add_sub, substring_prefix.
  split; [|done]. by exists "", r.
Qed.

End ReFacts.

Section ScanFacts.
Import PyStr Spec Spacy App.

(** An entry of the scan is reported for a match at this position, or is
    an entry of the scan from the next position on. *)
Lemma scan_elem (ic : bool) (a : Re.re) (b : option ascii) (s : string)
    (k : nat) (x : string) :
  x ∈ Re.scan ic a b s k →
  (∃ q, q ∈ Re.run ic a (b, s) ∧ x = substring 0 (Re.consumed s q) s)
  ∨ (∃ c r k', s = String c r ∧ x ∈ Re.scan ic a (Some c) r k').
Proof.
  assert (∀ k', x ∈ match s with
                    | String c r => Re.scan ic a (Some c) r k'
                    | EmptyString => []
                    end →
          ∃ c r k'', s = String c r ∧ x ∈ Re.scan ic a (Some c) r k'') as Hnext.
  { intros k' Hx. destruct s as [|c r]; [by apply elem_of_nil in Hx|].
    by exists c, r, k'. }
  assert (∀ q, q ∈ Re.run ic a (b, s) →
          x ∈ substring 0 (Re.consumed s q) s
              :: match s with
                 | String c r => Re.scan ic a (Some c) r (pred (Re.consumed s q))
                 | EmptyString => []
                 end →
          (∃ q, q ∈ Re.run ic a (b, s) ∧ x = substring 0 (Re.consumed s q) s)
          ∨ (∃ c r k', s = String c r ∧ x ∈ Re.scan ic a (Some c) r k'))
    as Hreport.
  { intros q Hq Hx. apply elem_of_cons in Hx as [->|Hx]; [left; by exists q|].
    right. by eapply Hnext. }
  intros Hx. destruct k as [|k].
  - assert (Re.scan ic a b s 0 =
      match Re.run ic a (b, s) with
      | [] => match s with
              | String c r => Re.scan ic a (Some c) r 0
              | EmptyString => []
              end
      | q :: qs =>
          if bool_decide (Re.consumed s q = 0) then
            EmptyString ::
              match list_find (λ q', Re.consumed s q' ≠ 0) qs with
              | Some (_, q') =>
                  substring 0 (Re.consumed s q') s
                    :: match s with
                       | String c r =>
                           Re.scan ic a (Some c) r (pred (Re.consumed s q'))
                       | EmptyString => []
                       end
              | None => match s with
                        | String c r => Re.scan ic a (Some c) r 0
                        | EmptyString => []
                        end
              end
          else substring 0 (Re.consumed s q) s
                 :: match s with
                    | String c r => Re.scan ic a (Some c) r (pred (Re.consumed s q))
                    | EmptyString => []
                    end
      end) as E by (by destruct s).
    rewrite E in Hx. clear E.
    destruct (Re.run ic a (b, s)) as [|q qs] eqn:Erun.
    { right. by eapply Hnext. }
    assert (∀ q', q' ∈ q :: qs → q' ∈ q :: qs) as Hin by done.
    case_bool_decide as Hzero.
    + apply elem_of_cons in Hx as [->|Hx].
      { left. exists q. split; [apply list_elem_of_here|].
        rewrite Hzero. by destruct s. }
      destruct (list_find _ qs) as [[i q']|] eqn:Efind.
      * apply list_find_Some in Efind as (Hi & _ & _).
        apply list_elem_of_lookup_2 in Hi.
        apply elem_of_cons in Hx as [->|Hx].
        -- left. exists q'. split; [by apply list_elem_of_further | done].
        -- right. by eapply Hnext.
      * right. by eapply Hnext.
    + apply elem_of_cons in Hx as [->|Hx].
      * left. exists q. split; [apply list_elem_of_here | done].
      * right. by eapply Hnext.
  - right. apply (Hnext k). by destruct s.
Qed.

(** Every entry of [re.findall] occurs in the subject, and has a length
    that a match of the pattern can have. *)
Lemma scan_occurs (ic : bool) (a : Re.re) (s : string) :
  ∀ (b : option ascii) (k : nat) (x : string),
    x ∈ Re.scan ic a b s k →
    occurs x s ∧ min_len a ≤ String.length x
    ∧ ∀ M, max_len a = Some M → String.length x ≤ M.
Proof.
  induction s as [|c r IH]; intros b k x Hx;
    apply scan_elem in Hx as [(q & Hq & ->)|(c' & r' & k' & E & Hx)].
  - by apply (reported_takes _ _ b), (run_takes ic).
  - done.
  - by apply (reported_takes _ _ b), (run_takes ic).
  - injection E as <- <-. apply IH in Hx as (Hocc & Hlen).
    split; [|done]. by apply (occurs_app_r _ (String c "") r).
Qed.

Lemma findall_occurs (ic : bool) (a : Re.re) (s x : string) :
  x ∈ Re.findall ic a s →
  str_in x s = true ∧ min_len a ≤ String.length x
  ∧ ∀ M, max_len a = Some M → String.length x ≤ M.
Proof.
  intros Hx. apply scan_occurs in Hx as (Hocc & Hlen).
  split; [by apply occurs_str_in | done].
Qed.

End ScanFacts.

(** X16: in fallback mode every entry of the DATES bucket occurs in the
    text as it stands and has from 4 to 10 characters, and every entry of
    the MONETARY bucket occurs in the text and has at least 2 characters. *)
Theorem fallback_matches_occur (S : PySet) (text : string) :
  ∃ dates money,
    App.extract_legal_entities None text !! "DATES" = Some dates
    ∧ App.extract_legal_entities None text !! "MONETARY" = Some money
    ∧ Forall (λ d, PyStr.str_in d text = true
                   ∧ 4 ≤ String.length d ∧ String.length d ≤ 10) dates
    ∧ Forall (λ m, PyStr.str_in m text = true ∧ 2 ≤ String.length m) money.
Proof.
  eexists _, _.
  split; [by rewrite extract_legal_entities_lookup, raw_dates|].
  split; [by rewrite extract_legal_entities_lookup, raw_monetary|].
  split; apply Forall_forall; intros x Hx;
    apply bucket_elem, list_set_elem, findall_occurs in Hx as (Hocc & Hmin & Hmax).
  - split; [done|]. split; [exact Hmin|]. by apply Hmax.
  - split; [done | exact Hmin].
Qed.

(** ** The sentence figure of the document statistics *)

Section Metric.
Import PyStr Spec Spacy App.

Lemma cons_head_length (c : ascii) (l : list string) :
  l ≠ [] → length (Re.cons_head c l) = length l.
Proof. by destruct l. Qed.

Lemma pieces_length (s : string) :
  ∀ in_sep, length (pieces in_sep s) = S (count_runs in_sep s).
Proof.
  induction s as [|c r IH]; intros in_sep; [done|].
  cbn [pieces count_runs]. destruct (is_end c).
  - destruct in_sep; cbn [length]; rewrite IH; lia.
  - rewrite cons_head_length, IH; [done|].
    intros E. pose proof (IH false) as Hl. by rewrite E in Hl.
Qed.

Lemma cons_head_snoc (c : ascii) (l : list string) (x : string) :
  l ≠ [] → Re.cons_head c (l ++ [x]) = Re.cons_head c l ++ [x].
Proof. by destruct l. Qed.

(** After a final terminator there is one more piece, and it is empty. *)
Lemma pieces_final_end (t : string) (c : ascii) :
  is_end c = true →
  ∀ in_sep, ∃ l, pieces in_sep (t +:+ String c "") = l ++ [""]
                 ∧ (in_sep = false → l ≠ []).
Proof.
  intros Hc. induction t as [|d t IH]; intros in_sep.
  - change ("" +:+ String c "") with (String c ""). cbn [pieces]. rewrite Hc.
    destruct in_sep; [by exists [] | by exists [""]].
  - rewrite app_cons. cbn [pieces]. destruct (is_end d).
    + destruct (IH true) as (l & -> & _).
      destruct in_sep; [by exists l | by exists ("" :: l)].
    + destruct (IH false) as (l & -> & Hl). specialize (Hl eq_refl).
      exists (Re.cons_head d l). split; [by apply cons_head_snoc|].
      by destruct l.
Qed.

End Metric.

(** X17: the number of sentences shown in the document statistics is one
    more than the number of runs of terminators in the text: it is 1 for a
    text without terminator, the empty text included. It is never less than
    the number of sentences that the fallback mode works with, and it is
    greater when the text ends with a terminator. *)
Theorem sentences_metric_counts_pieces (text : string) :
  App.sentences_metric text = S (Spec.count_runs false text)
  ∧ length (App.fallback_sentences text) ≤ App.sentences_metric text
  ∧ ∀ t c, text = t +:+ String c "" → Spec.is_end c = true →
           length (App.fallback_sentences text) < App.sentences_metric text.
Proof.
  unfold App.sentences_metric, App.fallback_sentences.
  rewrite split_sentence_end. split; [apply pieces_length|].
  split.
  - rewrite length_fmap. apply length_filter.
  - intros t c -> Hc. rewrite length_fmap.
    destruct (pieces_final_end t c Hc false) as (l & E & _).
    apply (length_filter_lt _ _ "").
    + rewrite E. apply elem_of_app. right. apply list_elem_of_here.
    + cbn. lia.
Qed.

Lemma sentences_metric_counts_pieces_witness :
  "It was signed on Monday." = "It was signed on Monday" +:+ String "." ""
  ∧ Spec.is_end "." = true
  ∧ length (App.fallback_sentences "It was signed on Monday.")
    < App.sentences_metric "It was signed on Monday.".
Proof.
  split; [reflexivity|]. split; [reflexivity|].
  exact (proj2 (proj2 (sentences_metric_counts_pieces "It was signed on Monday."))
           "It was signed on Monday" "."%char eq_refl eq_refl).
Defined.

(** ** The clause frequencies *)

Section Frequencies.
Import PyStr Spec Spacy App.

Lemma count_snoc (k w : string) (l : list string) :
  count k (l ++ [w]) = count k l + (if decide (w = k) then 1 else 0).
Proof.
  unfold count. rewrite filter_app, List.length_app. f_equal.
  rewrite filter_cons, filter_nil. by destruct (decide (w = k)).
Qed.

Lemma count_absent (k : string) (l : list string) : k ∉ l → count k l = 0.
Proof.
  intros Hk. unfold count.
  destruct (filter (λ x, x = k) l) as [|x r] eqn:E; [done|].
  assert (x ∈ filter (λ x, x = k) l) as Hx by (rewrite E; apply list_elem_of_here).
  by apply list_elem_of_filter in Hx as [-> Hx].
Qed.

Lemma bump_keys (w : string) (items : list (string * nat)) :
  (bump w items).*1 = if decide (w ∈ items.*1) then items.*1 else items.*1 ++ [w].
Proof.
  induction items as [|[k n] items IH]; [done|]. cbn [bump].
  destruct (decide (k = w)) as [->|Hne].
  - rewrite decide_True; [done|]. apply list_elem_of_here.
  - rewrite !fmap_cons, IH. cbn [fst].
    destruct (decide (w ∈ items.*1)) as [Hin|Hin].
    + rewrite decide_True; [done|]. by apply list_elem_of_further.
    + rewrite decide_False; [done|].
      intros Hw. by apply elem_of_cons in Hw as [->|Hw].
Qed.

Lemma bump_sum (w : string) (items : list (string * nat)) :
  sum_list (bump w items).*2 = S (sum_list items.*2).
Proof.
  induction items as [|[k n] items IH]; [done|]. cbn [bump].
  destruct (decide (k = w)); rewrite !fmap_cons; cbn [snd sum_list_with id];
    [|rewrite IH]; lia.
Qed.

(** The values are the numbers of occurrences of the keys. *)
Lemma bump_counts (w : string) (seen : list string)
    (items : list (string * nat)) :
  NoDup items.*1 →
  Forall (λ item, item.2 = count item.1 seen) items →
  (w ∉ items.*1 → count w seen = 0) →
  Forall (λ item, item.2 = count item.1 (seen ++ [w])) (bump w items).
Proof.
  induction items as [|[k n] items IH]; intros Hnd Hall Hw.
  - cbn [bump]. constructor; [|constructor]. cbn [fst snd].
    rewrite count_snoc, Hw, decide_True by (done || apply not_elem_of_nil). lia.
  - rewrite fmap_cons in Hnd. apply NoDup_cons in Hnd as [Hk Hnd].
    apply Forall_cons in Hall as [Hn Hall]. cbn [fst snd] in *. cbn [bump].
    destruct (decide (k = w)) as [->|Hne].
    + constructor.
      * cbn [fst snd]. rewrite count_snoc, decide_True by done. lia.
      * apply Forall_forall. intros [k' n'] Hin. cbn [fst snd].
        rewrite count_snoc, decide_False.
        -- rewrite Nat.add_0_r.
           by apply (proj1 (Forall_forall _ _) Hall (k', n')).
        -- intros ->. apply Hk. by apply (list_elem_of_fmap_2 fst _ (k', n')).
    + constructor.
      * cbn [fst snd]. rewrite count_snoc, decide_False by done. lia.
      * apply IH; [done | done |].
        intros Hin. apply Hw. intros Hw'.
        by apply elem_of_cons in Hw' as [->|Hw'].
Qed.

Lemma counted_bump (w : string) (items : list (string * nat))
    (seen : list string) :
  counted items seen → counted (bump w items) (seen ++ [w]).
Proof.
  intros (Hnd & Hkeys & Hall & Hsum). repeat split.
  - rewrite bump_keys. destruct (decide (w ∈ items.*1)); [done|].
    apply NoDup_app. split; [done|]. split; [|apply NoDup_singleton].
    intros k Hk Hkw. by apply list_elem_of_singleton in Hkw as ->.
  - rewrite bump_keys. destruct (decide (w ∈ items.*1)) as [Hin|Hin].
    + intros Hk. apply elem_of_app. left. by apply Hkeys.
    + intros Hk. apply elem_of_app in Hk as [Hk|Hk]; apply elem_of_app;
        [left; by apply Hkeys | by right].
  - rewrite bump_keys. intros Hk. apply elem_of_app in Hk as [Hk|Hk].
    + destruct (decide (w ∈ items.*1)); [by apply Hkeys|].
      apply elem_of_app. left. by apply Hkeys.
    + apply list_elem_of_singleton in Hk as ->.
      destruct (decide (w ∈ items.*1)); [done|].
      apply elem_of_app. right. apply list_elem_of_here.
  - apply bump_counts; [done | done |].
    intros Hw. apply count_absent. by rewrite <- Hkeys.
  - rewrite bump_sum, Hsum, List.length_app. cbn. lia.
Qed.

Lemma counted_foldl (l : list string) :
  ∀ items seen,
    counted items seen →
    counted (foldl (λ items w, bump w items) items l) (seen ++ l).
Proof.
  induction l as [|w l IH]; intros items seen Hinv.
  - by rewrite app_nil_r.
  - cbn [foldl]. replace (seen ++ w :: l) with ((seen ++ [w]) ++ l)
      by (by rewrite <- (assoc_L (++))).
    by apply IH, counted_bump.
Qed.

Lemma counted_items (words : list string) : counted (Counter_items words) words.
Proof.
  apply (counted_foldl words [] []). repeat split; try done; constructor.
Qed.

(** Sorting the items does not change what is counted. *)
Lemma counted_most_common (words : list string) :
  counted (most_common words) words.
Proof.
  destruct (counted_items words) as (Hnd & Hkeys & Hall & Hsum).
  pose proof (sorted_desc_perm snd (Counter_items words)) as Hperm.
  unfold most_common. repeat split.
  - by rewrite Hperm.
  - rewrite Hperm. apply Hkeys.
  - rewrite Hperm. apply Hkeys.
  - by rewrite Hperm.
  - by rewrite Hperm.
Qed.

End Frequencies.

(** X18: [visualize_key_clauses_frequency] shows the notice exactly when
    there is no clause. Otherwise it draws one bar for each distinct clause:
    the labels are the clauses without repetition, the value of a label is
    the number of times the clause occurs, the values are in descending
    order, and they add up to the number of clauses. *)
Theorem clause_frequencies (clauses : list string) :
  match App.visualize_key_clauses_frequency clauses with
  | App.NoClauses => clauses = []
  | App.BarChart labels values =>
      clauses ≠ []
      ∧ NoDup labels
      ∧ (∀ w, w ∈ labels ↔ w ∈ clauses)
      ∧ length values = length labels
      ∧ (∀ i w n, labels !! i = Some w → values !! i = Some n →
                  n = Spec.count w clauses)
      ∧ StronglySorted (λ x y, y ≤ x) values
      ∧ sum_list values = length clauses
  end.
Proof.
  destruct (counted_most_common clauses) as (Hnd & Hkeys & Hall & Hsum).
  unfold App.visualize_key_clauses_frequency.
  destruct (App.most_common clauses) as [|item common] eqn:E.
  - destruct clauses as [|c clauses]; [done|].
    exfalso. apply (not_elem_of_nil c), Hkeys, list_elem_of_here.
  - split.
    { intros ->. apply (not_elem_of_nil item.1), Hkeys. rewrite fmap_cons.
      apply list_elem_of_here. }
    split; [exact Hnd|]. split; [exact Hkeys|].
    split; [by rewrite !length_fmap|]. split; [|split; [|exact Hsum]].
    + intros i w n Hw Hn. rewrite list_lookup_fmap in Hw.
      rewrite list_lookup_fmap in Hn.
      destruct ((item :: common) !! i) as [[k m]|] eqn:Ei; [|done].
      cbn in Hw, Hn. injection Hw as ->. injection Hn as ->.
      apply list_elem_of_lookup_2 in Ei.
      by apply (proj1 (Forall_forall _ _) Hall (w, n)).
    + rewrite <- E. unfold App.most_common.
      eapply (StronglySorted_fmap snd); [|apply sorted_desc_sorted]. done.
Qed.
